(** * PwnChain: the module execution engine ([pwnchain_module.py])

    A shallow embedding of class [Module] and a verification of its
    cascading, gating, scoping and provisioning behaviour.

    Python objects that the engine mutates are kept in an explicit store:
    every [dict] held in [self.var] lives at an address of [heap], so that
    [var.copy()] is an allocation and [self.var[k] = v] an update in place.
    Exceptions are a result type threaded through a state monad; a raised
    exception keeps the mutations made before it, as in Python.

    Left out are the records sent to the logger at level debug, the
    [log_handler] that is only handed on, and the list [self.tmp_files]
    that keeps the temporary files open: none of them can raise or is
    read back by the engine.

    The interpreter and operating-system services the engine calls
    ([str.format], [re], [eval], [Popen], [b64decode], [urlopen], [open],
    [NamedTemporaryFile]) are the fields of the class [Runtime]; the theorems
    hold for every runtime.  [Py.runtime] implements a fragment of CPython,
    enough to run the repository's own test fixture. *)

From Stdlib Require Import ZArith String Ascii List Lia.
From Stdlib.Strings Require Import Byte.
From stdpp Require Import base option list gmap strings pretty.


(** ** Values, scopes and exceptions *)

(** The values a scope can hold: JSON scalars from ["vars"], the [str]
    file names bound by [unpack_files], and what [match.group] returns
    (a [str], or [None] for a group that took no part in the match). *)
Inductive value :=
  | VStr (s : string)
  | VInt (n : Z)
  | VBool (b : bool)
  | VNone.

(** Python truthiness, as used by [not self.cfg["enabled"]] and
    [if eval(condition)]. *)
Definition truthy (v : value) : bool :=
  match v with
  | VStr s => negb (String.eqb s "")
  | VInt n => negb (Z.eqb n 0)
  | VBool b => b
  | VNone => false
  end.

(** [self.var]: a [dict] from names to values. *)
Abbreviation scope := (gmap string value).

(** Addresses of [dict] objects. *)
Abbreviation loc := nat.

(** The contents of the file system the engine writes: path to bytes. *)
Abbreviation files := (gmap string (list byte)).

Inductive exn :=
  | KeyError (k : string)      (* a template or subscript names a missing key *)
  | ValueError                 (* malformed template *)
  | IndexError                 (* [match.group(idx)]: no such group *)
  | ReError                    (* [re.compile] rejects the pattern *)
  | EvalError                  (* [eval] raises *)
  | BinasciiError              (* [b64decode] rejects the payload *)
  | URLError                   (* [urlopen] fails *)
  | OSError                    (* [Popen] cannot start the process *)
  | Unsupported.               (* input outside the fragment of [Py.runtime] *)

Inductive result (A : Type) :=
  | Ok (a : A)
  | Raise (e : exn).
Arguments Ok {A} a.
Arguments Raise {A} e.

(** ** The interpreter and the operating system *)

Class Runtime := {
  (** [template.format] with the entries of [var] as keyword arguments *)
  str_format : string → scope → result string;
  (** compiled pattern objects *)
  regex : Type;
  (** [re.compile(source)] *)
  re_compile : string → result regex;
  (** [pattern.match(line)]: [None], or the texts of groups 1..N *)
  re_match : regex → string → option (list (option string));
  (** [eval(condition)] *)
  py_eval : string → scope → result value;
  (** [base64.b64decode(content)] *)
  b64decode : string → result (list byte);
  (** [urlopen(url).read()] *)
  urlopen : string → result (list byte);
  (** [Popen(argv, stdout=PIPE, ...)]: the lines of the standard output *)
  popen : list string → files → result (list string);
  (** whether [open(path, "w")] succeeds *)
  open_w : string → bool;
  (** the name of the n-th [NamedTemporaryFile] *)
  tmp_name : nat → string
}.

(** ** Node definitions (the validated configuration tree) *)

Record pattern_def := PatternDef {
  p_pattern : string;
  p_groups : list string;
  p_log : option string
}.

Record file_def := FileDef {
  f_name : string;
  f_type : string;
  f_content : string
}.

(** [c_on_match] and [c_always] are [cfg["submodules"][group]]; [None] when
    ["submodules"] or the group is absent (the test of [run_submodules]). *)
#[warnings="-register-all"]
Inductive cfg := Cfg {
  c_name : string;
  c_cmd : string;
  c_vars : option (list (string * value));
  c_enabled : option value;
  c_condition : option string;
  c_patterns : option (list pattern_def);
  c_files : option (list file_def);
  c_logfile : option string;
  c_on_match : option (list cfg);
  c_always : option (list cfg)
}.

Inductive modgroup := OnMatch | Always.

Definition modgroup_eqb (g h : modgroup) : bool :=
  match g, h with
  | OnMatch, OnMatch | Always, Always => true
  | _, _ => false
  end.

Definition submodules (c : cfg) (g : modgroup) : option (list cfg) :=
  match g with
  | OnMatch => c_on_match c
  | Always => c_always c
  end.

(** ** Module instances and the machine state *)

(** A [Module] object: its definition, the address of its own [var] dict
    and the name of its logger.  The [thread_pool] list is the one list
    every instance of a tree shares; it is the [pool] of the state. *)
Record instance := Instance {
  m_cfg : cfg;
  m_var : loc;
  m_logger : string
}.

Inductive level := Info | Warning.

(** What a run does to the outside world, in order: [EvPopen] is the call
    of [Popen], [EvLine] a line yielded by [exec_cmd], [EvLog] a record
    sent to the logger at level info or warning, [EvTrigger] the entry of
    [run_submodules] and [EvStart] the [thread.start()] of a child. *)
Inductive event :=
  | EvPopen (argv : list string)
  | EvLine (owner : loc) (line : string)
  | EvLog (lvl : level) (logger : string) (msg : string)
  | EvTrigger (owner : loc) (g : modgroup)
  | EvStart (child : instance).

(** [save_logfiles]: [False] or the directory of the log files. *)
Abbreviation logdir := (option string).

Record state := State {
  heap : list scope;              (* the [dict] objects, by address *)
  fs : files;
  ntmp : nat;                     (* temporary files created so far *)
  pool : list (instance * logdir);(* [thread_pool]: the threads started *)
  trace : list event
}.

(** ** The state and exception monad *)

Definition M (A : Type) : Type := state → result A * state.

#[export] Instance M_ret : MRet M := λ A a σ, (Ok a, σ).

#[export] Instance M_bind : MBind M := λ A B f m σ,
  match m σ with
  | (Ok a, σ') => f a σ'
  | (Raise e, σ') => (Raise e, σ')
  end.

Definition lift {A} (r : result A) : M A := λ σ, (r, σ).

Definition get_state : M state := λ σ, (Ok σ, σ).

Definition emit (ev : event) : M unit := λ σ,
  (Ok tt, State (heap σ) (fs σ) (ntmp σ) (pool σ) (trace σ ++ [ev])).

(** [for x in xs: body(x)] *)
Fixpoint for_each {A} (xs : list A) (body : A → M unit) : M unit :=
  match xs with
  | [] => mret tt
  | x :: xs' => body x ;; for_each xs' body
  end.

(** [self.thread_pool.append(thread)] *)
Definition register (t : instance * logdir) : M unit := λ σ,
  (Ok tt, State (heap σ) (fs σ) (ntmp σ) (pool σ ++ [t]) (trace σ)).

(** ** Dict objects *)

(** The dict at address [l]. *)
Definition read_var (l : loc) : M scope := λ σ, (Ok (heap σ !!! l), σ).

(** [d.copy()] and [{}]: a new dict object. *)
Definition alloc (d : scope) : M loc := λ σ,
  (Ok (length (heap σ)),
   State (heap σ ++ [d]) (fs σ) (ntmp σ) (pool σ) (trace σ)).

(** [d[k] = v] on the dict at [l]. *)
Definition set_var (l : loc) (k : string) (v : value) : M unit := λ σ,
  (Ok tt,
   State (alter (insert k v) l (heap σ)) (fs σ) (ntmp σ) (pool σ) (trace σ)).

(** [template.format] against [self.var] *)
Definition format `{Runtime} (l : loc) (template : string) : M string :=
  d ← read_var l; lift (str_format template d).

(** ** Files *)

(** [NamedTemporaryFile(buffering = 0)]: a new, empty file. *)
Definition NamedTemporaryFile `{Runtime} : M string := λ σ,
  let path := tmp_name (ntmp σ) in
  (Ok path,
   State (heap σ) (<[path := []]> (fs σ)) (S (ntmp σ)) (pool σ) (trace σ)).

(** [fp.write(data)] *)
Definition write (path : string) (data : list byte) : M unit := λ σ,
  (Ok tt,
   State (heap σ) (<[path := default [] (fs σ !! path) ++ data]> (fs σ))
         (ntmp σ) (pool σ) (trace σ)).

(** [open(path, "w")]: truncates. *)
Definition truncate (path : string) : M unit := λ σ,
  (Ok tt, State (heap σ) (<[path := []]> (fs σ)) (ntmp σ) (pool σ) (trace σ)).

(** [s.encode()]: strings are taken as UTF-8 text already. *)
Definition encode (s : string) : list byte := list_byte_of_string s.

(** [s.split()]: the maximal runs of non-whitespace characters. *)
Definition is_space (c : ascii) : bool :=
  let n := nat_of_ascii c in
  ((9 <=? n) && (n <=? 13)) || ((28 <=? n) && (n <=? 32)).

Fixpoint split_go (s : string) (cur : string) : list string :=
  match s with
  | EmptyString => if String.eqb cur "" then [] else [String.rev cur]
  | String c s' =>
      if is_space c
      then (if String.eqb cur "" then [] else [String.rev cur]) ++ split_go s' ""
      else split_go s' (String c cur)
  end.

Definition py_split (s : string) : list string := split_go s "".

(** An entry of the list [patterns] of [run_worker]: the compiled
    pattern, the capture names and the log template. *)
Record compiled_with (R : Type) := Compiled {
  cp_pattern : R;
  cp_groups : list string;
  cp_log : option string
}.
Arguments Compiled {R} _ _ _.
Arguments cp_pattern {R} _.
Arguments cp_groups {R} _.
Arguments cp_log {R} _.

Abbreviation compiled := (compiled_with regex).

(** ** Class [Module] *)

Section Module.
Context `{Runtime}.

(** [Module.__init__(self, thread_pool, cfg, var, log_handler)], for the
    definition [cfg] that every caller gives.  The scope is [var.copy()]
    (or [{}]) with the entries of [cfg["vars"]] stored over it; the
    logger name is the resolved name template. *)
Definition Module_init (c : cfg) (var : option loc) : M instance :=
  d ← match var with
      | Some l => read_var l
      | None => mret ∅
      end;
  l ← alloc d;
  match c_vars c with
  | Some vs => for_each vs (λ kv, set_var l kv.1 kv.2)
  | None => mret tt
  end;;
  name ← format l (c_name c);
  mret (Instance c l name).

(** [Module.run]: [thread.start()], then [self.thread_pool.append(thread)]. *)
Definition run (m : instance) (save_logfiles : logdir) : M unit :=
  emit (EvStart m);;
  register (m, save_logfiles).

(** [Module.run_submodules] *)
Definition run_submodules (m : instance) (g : modgroup)
    (save_logfiles : logdir) : M unit :=
  emit (EvTrigger (m_var m) g);;
  match submodules (m_cfg m) g with
  | Some posts =>
      for_each posts (λ post_task,
        sub_task ← Module_init post_task (Some (m_var m));
        run sub_task save_logfiles)
  | None => mret tt
  end.

(** [Module.should_not_run] *)
Definition should_not_run (m : instance) : M bool :=
  let disabled :=
    match c_enabled (m_cfg m) with
    | Some v => negb (truthy v)
    | None => false
    end in
  if disabled then mret true
  else
    match c_condition (m_cfg m) with
    | Some template =>
        condition ← format (m_var m) template;
        d ← read_var (m_var m);
        v ← lift (py_eval condition d);
        mret (negb (truthy v))
    | None => mret false
    end.

(** One iteration of the loop of [Module.unpack_files]. *)
Definition unpack_file (m : instance) (file_dict : file_def) : M unit :=
  tmp_file ← NamedTemporaryFile;
  set_var (m_var m) (f_name file_dict) (VStr tmp_file);;
  if String.eqb (f_type file_dict) "text" then
    write tmp_file (encode (f_content file_dict))
  else if String.eqb (f_type file_dict) "base64" then
    data ← lift (b64decode (f_content file_dict));
    write tmp_file data
  else if String.eqb (f_type file_dict) "wget" then
    data ← lift (urlopen (f_content file_dict));
    write tmp_file data
  else mret tt.

(** [Module.unpack_files] *)
Definition unpack_files (m : instance) : M unit :=
  match c_files (m_cfg m) with
  | None => mret tt
  | Some fds => for_each fds (unpack_file m)
  end.

Fixpoint compile_patterns (m : instance) (pds : list pattern_def)
    : M (list compiled) :=
  match pds with
  | [] => mret []
  | pattern_dict :: rest =>
      src ← format (m_var m) (p_pattern pattern_dict);
      r ← lift (re_compile src);
      cps ← compile_patterns m rest;
      mret (Compiled r (p_groups pattern_dict) (p_log pattern_dict) :: cps)
  end.

(** [match.group(idx)], for [idx] from 1. *)
Definition match_group (mt : list (option string)) (idx : nat) : result value :=
  match mt !! (idx - 1) with
  | Some (Some s) => Ok (VStr s)
  | Some None => Ok VNone
  | None => Raise IndexError
  end.

(** The loop over [pattern_dict["groups"]]: the right-hand side
    [match.group(idx)] is evaluated before the subscript. *)
Fixpoint bind_groups (m : instance) (mt : list (option string))
    (groups : list string) (idx : nat) : M unit :=
  match groups with
  | [] => mret tt
  | group :: rest =>
      v ← lift (match_group mt idx);
      name ← format (m_var m) group;
      set_var (m_var m) name v;;
      bind_groups m mt rest (S idx)
  end.

(** [if pattern_dict["log"]: self.logger.info(...)]: the log record of
    a match, when the pattern has a log template that is not empty. *)
Definition log_match (m : instance) (log : option string) : M unit :=
  match log with
  | Some log =>
      if String.eqb log "" then mret tt
      else msg ← format (m_var m) log;
           emit (EvLog Info (m_logger m) msg)
  | None => mret tt
  end.

(** The body of the loop over [patterns], for one line. *)
Definition on_pattern (m : instance) (save_logfiles : logdir)
    (line : string) (pattern_dict : compiled) : M unit :=
  match re_match (cp_pattern pattern_dict) line with
  | Some mt =>
      bind_groups m mt (cp_groups pattern_dict) 1;;
      log_match m (cp_log pattern_dict);;
      run_submodules m OnMatch save_logfiles
  | None => mret tt
  end.

(** [Module.exec_cmd] up to its loop: the process is started, then the
    log file is opened; a log file that cannot be opened is a warning. *)
Definition exec_cmd_start (m : instance) (cmd : string)
    (logfile : option string) : M (list string * option string) :=
  emit (EvPopen (py_split cmd));;
  σ ← get_state;
  lines ← lift (popen (py_split cmd) (fs σ));
  logfile_fp ← match logfile with
               | Some p =>
                   if open_w p then truncate p;; mret (Some p)
                   else emit (EvLog Warning (m_logger m)
                                ("failed to open " +:+ p +:+ " for writing"));;
                        mret None
               | None => mret None
               end;
  mret (lines, logfile_fp).

(** One iteration of the generator [exec_cmd]: tee, then yield. *)
Definition exec_cmd_yield (m : instance) (logfile_fp : option string)
    (line : string) : M unit :=
  match logfile_fp with
  | Some p => write p (encode line)
  | None => mret tt
  end;;
  emit (EvLine (m_var m) line).

(** The name of the log file of [run_worker]. *)
Definition logfile_of (m : instance) (save_logfiles : logdir)
    : M (option string) :=
  match save_logfiles, c_logfile (m_cfg m) with
  | Some dir, Some template =>
      if String.eqb dir "" then mret None
      else name ← format (m_var m) template;
           mret (Some (dir +:+ "/" +:+ name))
  | _, _ => mret None
  end.

(** The [for line in self.exec_cmd(cmd, logfile)] loop of [run_worker]. *)
Definition consume (m : instance) (save_logfiles : logdir)
    (patterns : list compiled) (logfile_fp : option string)
    (lines : list string) : M unit :=
  for_each lines (λ line,
    exec_cmd_yield m logfile_fp line;;
    for_each patterns (on_pattern m save_logfiles line)).

(** [run_worker] once [should_not_run] has answered no. *)
Definition run_body (m : instance) (save_logfiles : logdir) : M unit :=
  unpack_files m;;
  cmd ← format (m_var m) (c_cmd (m_cfg m));
  patterns ← match c_patterns (m_cfg m) with
             | Some pds => compile_patterns m pds
             | None => mret []
             end;
  logfile ← logfile_of m save_logfiles;
  '(lines, logfile_fp) ← exec_cmd_start m cmd logfile;
  consume m save_logfiles patterns logfile_fp lines;;
  run_submodules m Always save_logfiles.

(** [Module.run_worker] *)
Definition run_worker (m : instance) (save_logfiles : logdir) : M unit :=
  skipped ← should_not_run m;
  if skipped : bool then mret tt else run_body m save_logfiles.

(** A thread running [run_worker]: an exception ends that thread only. *)
Definition thread_body (t : instance * logdir) : M unit := λ σ,
  (Ok tt, snd (run_worker (fst t) (snd t) σ)).

(** One schedule of a whole tree: the threads of the pool run one after
    the other, in the order in which they were registered. *)
Fixpoint run_tree (fuel : nat) (i : nat) : M bool :=
  match fuel with
  | 0 => mret false
  | S fuel' =>
      σ ← get_state;
      match pool σ !! i with
      | Some t => thread_body t;; run_tree fuel' (S i)
      | None => mret true
      end
  end.

(** The enabled flag is absent or true. *)
Definition enabled (c : cfg) : bool :=
  match c_enabled c with
  | Some v => truthy v
  | None => true
  end.

(** *** The phases of [run_worker] *)

(** Everything [run_worker] does before it starts the process. *)
Definition pre_spawn (m : instance) (save_logfiles : logdir)
    : M (string * list compiled * option string) :=
  unpack_files m;;
  cmd ← format (m_var m) (c_cmd (m_cfg m));
  patterns ← match c_patterns (m_cfg m) with
             | Some pds => compile_patterns m pds
             | None => mret []
             end;
  logfile ← logfile_of m save_logfiles;
  mret (cmd, patterns, logfile).

(** Everything [run_worker] does before it reads the first line. *)
Definition prepare (m : instance) (save_logfiles : logdir)
    : M (list compiled * option string * list string) :=
  '(cmd, patterns, logfile) ← pre_spawn m save_logfiles;
  '(lines, logfile_fp) ← exec_cmd_start m cmd logfile;
  mret (patterns, logfile_fp, lines).

(** What [unpack_files] writes into the file of [file_dict]. *)
Definition payload (file_dict : file_def) : result (list byte) :=
  if String.eqb (f_type file_dict) "text" then
    Ok (encode (f_content file_dict))
  else if String.eqb (f_type file_dict) "base64" then
    b64decode (f_content file_dict)
  else if String.eqb (f_type file_dict) "wget" then
    urlopen (f_content file_dict)
  else Ok [].

(** The state after one iteration of [unpack_files]: a temporary file
    holding [data], its path stored in the scope at [l]. *)
Definition provisioned (l : loc) (name : string) (data : list byte)
    (σ : state) : state :=
  State (alter (insert name (VStr (tmp_name (ntmp σ)))) l (heap σ))
        (<[tmp_name (ntmp σ) := data]> (fs σ))
        (S (ntmp σ)) (pool σ) (trace σ).

(** [cp] is the entry that [run_worker] makes of the declared pattern
    [pd] when the scope is [d]. *)
Definition compiles_to (d : scope) (pd : pattern_def) (cp : compiled)
    : Prop :=
  cp_groups cp = p_groups pd
  ∧ cp_log cp = p_log pd
  ∧ ∃ src, str_format (p_pattern pd) d = Ok src
           ∧ re_compile src = Ok (cp_pattern cp).

(** *** Observations *)

Definition matches (line : string) (p : compiled) : bool :=
  match re_match (cp_pattern p) line with
  | Some _ => true
  | None => false
  end.

(** The match occurrences of a run, in the order in which the loop meets
    them: line by line, and for each line pattern by pattern. *)
Definition occurrences (patterns : list compiled) (lines : list string)
    : list (string * compiled) :=
  flat_map (λ line, map (pair line) (List.filter (matches line) patterns))
           lines.

(** [bind_groups] as a function on the dict alone. *)
Fixpoint bound (d : scope) (mt : list (option string))
    (groups : list string) (idx : nat) : result scope :=
  match groups with
  | [] => Ok d
  | group :: rest =>
      match match_group mt idx with
      | Ok v =>
          match str_format group d with
          | Ok name => bound (<[name := v]> d) mt rest (S idx)
          | Raise e => Raise e
          end
      | Raise e => Raise e
      end
  end.

End Module.

(** ** Observations on traces and scopes *)

Definition is_trigger (g : modgroup) (ev : event) : bool :=
  match ev with
  | EvTrigger _ g' => modgroup_eqb g g'
  | _ => false
  end.

(** How often the group [g] is triggered in a trace. *)
Definition count_trigger (g : modgroup) (evs : list event) : nat :=
  length (List.filter (is_trigger g) evs).

(** The lines consumed in a trace. *)
Fixpoint lines_of (evs : list event) : list string :=
  match evs with
  | [] => []
  | EvLine _ line :: evs' => line :: lines_of evs'
  | _ :: evs' => lines_of evs'
  end.

(** The messages logged at level info in a trace. *)
Fixpoint info_of (evs : list event) : list string :=
  match evs with
  | [] => []
  | EvLog Info _ msg :: evs' => msg :: info_of evs'
  | _ :: evs' => info_of evs'
  end.

(** The children started in a trace. *)
Fixpoint started (evs : list event) : list instance :=
  match evs with
  | [] => []
  | EvStart sub :: evs' => sub :: started evs'
  | _ :: evs' => started evs'
  end.

(** The value [match.group] returns for a group. *)
Definition group_value (g : option string) : value :=
  match g with
  | Some s => VStr s
  | None => VNone
  end.

(** Capture binding as the specification words it: the text of each
    group is bound under its resolved name, in positional order. *)
Definition bind_positional (d : scope) (names : list string)
    (vals : list value) : scope :=
  foldl (λ d nv, <[fst nv := snd nv]> d) d (zip names vals).

(** The declared variables stored over a copy [d] of the parent scope. *)
Definition overlay (vs : option (list (string * value))) (d : scope) : scope :=
  foldl (λ d kv, <[fst kv := snd kv]> d) d (default [] vs).

(** The dicts below address [n] other than [l] are the same in [σ'] as in
    [σ], and no dict has disappeared. *)
Definition frame (n : nat) (l : loc) (σ σ' : state) : Prop :=
  length (heap σ) ≤ length (heap σ')
  ∧ ∀ l', l' < n → l' ≠ l → heap σ' !! l' = heap σ !! l'.

(** The state after [Module.__init__]: one new dict, the copy of the
    parent scope with the declared variables stored over it. *)
Definition after_init (c : cfg) (var : option loc) (σ : state) : state :=
  let d := match var with
           | Some l => heap σ !!! l
           | None => ∅
           end in
  State (heap σ ++ [overlay (c_vars c) d]) (fs σ) (ntmp σ) (pool σ) (trace σ).

(** [subs] are the instances that [run_submodules] makes of [posts] when
    the scope of the parent is [parent] and the next free address [base]:
    the i-th one has the i-th definition, its own new dict, and the
    resolved name. *)
Definition spawned `{Runtime} (parent : scope) (base : nat)
    (posts : list cfg) (subs : list instance) : Prop :=
  m_var <$> subs = seq base (length posts)
  ∧ Forall2 (λ post sub,
       m_cfg sub = post
       ∧ str_format (c_name post) (overlay (c_vars post) parent)
         = Ok (m_logger sub)) posts subs.

(** [framed] is [frame] for the addresses that exist in [σ]. *)
Definition framed (n : nat) (l : loc) (σ σ' : state) : Prop :=
  n ≤ length (heap σ) → frame n l σ σ'.

(** The events added between [σ] and [σ'] satisfy [P]. *)
Definition emits (P : list event → Prop) (σ σ' : state) : Prop :=
  ∃ evs, trace σ' = trace σ ++ evs ∧ P evs.

(** Every run of [m], whatever its outcome, relates its two states by [R]. *)
Definition preserves {A} (R : state → state → Prop) (m : M A) : Prop :=
  ∀ σ r σ', m σ = (r, σ') → R σ σ'.

(** Events that are neither a trigger of [Always] nor a line. *)
Definition quiet (evs : list event) : Prop :=
  count_trigger Always evs = 0 ∧ lines_of evs = [].

(** Events that are no trigger, no line and no start of a child. *)
Definition silent (evs : list event) : Prop :=
  (∀ g, count_trigger g evs = 0) ∧ lines_of evs = [] ∧ started evs = [].

(** Events among which [Always] is not triggered. *)
Definition no_always (evs : list event) : Prop :=
  count_trigger Always evs = 0.

(** ** A fragment of CPython

    Enough of the interpreter to run concrete trees: templates with
    [{name}] fields and doubled braces, regular expressions with literals,
    [.], classes, groups, alternation and the greedy [*], [+], [?],
    standard base64, and the commands [echo] and [cat]. *)

Module Py.

#[export] Instance result_ret : MRet result := λ A a, Ok a.

#[export] Instance result_bind : MBind result := λ A B f r,
  match r with
  | Ok a => f a
  | Raise e => Raise e
  end.

#[export] Instance result_fmap : FMap result := λ A B f r,
  match r with
  | Ok a => Ok (f a)
  | Raise e => Raise e
  end.

(** [str(v)] *)
Definition py_str (v : value) : string :=
  match v with
  | VStr s => s
  | VInt n => pretty n
  | VBool true => "True"
  | VBool false => "False"
  | VNone => "None"
  end.

Definition is_digit (c : ascii) : bool :=
  let n := nat_of_ascii c in (48 <=? n) && (n <=? 57).

Fixpoint all_digits (s : string) : bool :=
  match s with
  | EmptyString => true
  | String c s' => is_digit c && all_digits s'
  end.

(** [template.format] with keyword arguments [d].  [field] is the name
    of the replacement field being read, reversed, when inside braces.
    Errors are raised left to right; conversions, format specifiers and
    attribute or index lookups are outside the fragment. *)
Fixpoint format_go (s : string) (d : scope) (field : option string)
    : result string :=
  match s, field with
  | EmptyString, None => Ok ""
  | EmptyString, Some _ => Raise ValueError
  | String c s', None =>
      if Ascii.eqb c "{" then
        match s' with
        | String "{" s'' => String "{"%char <$> format_go s'' d None
        | _ => format_go s' d (Some "")
        end
      else if Ascii.eqb c "}" then
        match s' with
        | String "}" s'' => String "}"%char <$> format_go s'' d None
        | _ => Raise ValueError
        end
      else String c <$> format_go s' d None
  | String c s', Some rname =>
      if Ascii.eqb c "}" then
        let name := String.rev rname in
        if all_digits name then Raise IndexError
        else match d !! name with
             | Some v => String.append (py_str v) <$> format_go s' d None
             | None => Raise (KeyError name)
             end
      else if existsb (Ascii.eqb c) ["{"; "!"; ":"; "."; "["]%char
      then Raise Unsupported
      else format_go s' d (Some (String c rname))
  end.

Definition format (template : string) (d : scope) : result string :=
  format_go template d None.

(** *** Regular expressions *)

Inductive re :=
  | REps
  | RChar (c : ascii)
  | RAny
  | RClass (negated : bool) (ranges : list (ascii * ascii))
  | RSeq (a b : re)
  | RAlt (a b : re)
  | RStar (a : re)
  | RGroup (i : nat) (a : re).

Definition in_ranges (c : ascii) (ranges : list (ascii * ascii)) : bool :=
  existsb (λ r, (nat_of_ascii (fst r) <=? nat_of_ascii c)
                && (nat_of_ascii c <=? nat_of_ascii (snd r))) ranges.

(** The text consumed between [s] and its suffix [s']. *)
Definition consumed (s s' : string) : string :=
  String.substring 0 (String.length s - String.length s') s.

(** Backtracking matcher in continuation-passing style: [k] receives the
    rest of the subject and the groups captured so far.  Alternatives are
    tried left to right and [*] is greedy, as in [re]. *)
Fixpoint matcher (r : re) (s : string) (caps : list (option string))
    (k : string → list (option string) → option (list (option string)))
    : option (list (option string)) :=
  match r with
  | REps => k s caps
  | RChar c =>
      match s with
      | String c' s' => if Ascii.eqb c c' then k s' caps else None
      | EmptyString => None
      end
  | RAny =>
      match s with
      | String c' s' => if Ascii.eqb c' "010" then None else k s' caps
      | EmptyString => None
      end
  | RClass negated ranges =>
      match s with
      | String c' s' =>
          if xorb negated (in_ranges c' ranges) then k s' caps else None
      | EmptyString => None
      end
  | RSeq a b => matcher a s caps (λ s' caps', matcher b s' caps' k)
  | RAlt a b =>
      match matcher a s caps k with
      | Some res => Some res
      | None => matcher b s caps k
      end
  | RStar a =>
      (fix star (n : nat) (s : string) (caps : list (option string)) :=
         match n with
         | 0 => k s caps
         | S n' =>
             match matcher a s caps (λ s' caps',
                     if String.length s' <? String.length s
                     then star n' s' caps' else None) with
             | Some res => Some res
             | None => k s caps
             end
         end) (String.length s) s caps
  | RGroup i a =>
      matcher a s caps (λ s' caps',
        k s' (<[i := Some (consumed s s')]> caps'))
  end.

Definition class_of_escape (c : ascii) : option re :=
  if Ascii.eqb c "d" then Some (RClass false [("0", "9")]%char)
  else if Ascii.eqb c "w"
  then Some (RClass false [("a", "z"); ("A", "Z"); ("0", "9"); ("_", "_")]%char)
  else if Ascii.eqb c "s"
  then Some (RClass false [(" ", " "); ("009", "013")]%char)
  else None.

Definition is_alnum (c : ascii) : bool :=
  in_ranges c [("a", "z"); ("A", "Z"); ("0", "9")]%char.

(** The items of a character class, up to the closing bracket. *)
Fixpoint parse_class (s : list ascii) (acc : list (ascii * ascii))
    : result (list (ascii * ascii) * list ascii) :=
  match s with
  | [] => Raise ReError
  | c :: s1 =>
      if Ascii.eqb c "]" then Ok (rev acc, s1)
      else if Ascii.eqb c "\" then Raise Unsupported
      else match s1 with
           | d :: e :: s2 =>
               if Ascii.eqb d "-" && negb (Ascii.eqb e "]")
               then parse_class s2 ((c, e) :: acc)
               else parse_class s1 ((c, c) :: acc)
           | _ => parse_class s1 ((c, c) :: acc)
           end
  end.

Definition quantifier (a : re) (s : list ascii) : re * list ascii :=
  match s with
  | c :: s1 =>
      if Ascii.eqb c "*" then (RStar a, s1)
      else if Ascii.eqb c "+" then (RSeq a (RStar a), s1)
      else if Ascii.eqb c "?" then (RAlt a REps, s1)
      else (a, s)
  | [] => (a, s)
  end.

(** Recursive descent over the pattern source; [g] is the number of
    groups opened so far, so that groups are numbered by their opening
    parenthesis. *)
Fixpoint parse_alt (fuel : nat) (s : list ascii) (g : nat)
    : result (re * list ascii * nat) :=
  match fuel with
  | 0 => Raise Unsupported
  | S fuel' =>
      '(a, s1, g1) ← parse_seq fuel' s g;
      match s1 with
      | "|"%char :: s2 =>
          '(b, s3, g3) ← parse_alt fuel' s2 g1;
          Ok (RAlt a b, s3, g3)
      | _ => Ok (a, s1, g1)
      end
  end
with parse_seq (fuel : nat) (s : list ascii) (g : nat)
    : result (re * list ascii * nat) :=
  match fuel with
  | 0 => Raise Unsupported
  | S fuel' =>
      match s with
      | [] => Ok (REps, s, g)
      | c :: _ =>
          if Ascii.eqb c "|" || Ascii.eqb c ")" then Ok (REps, s, g)
          else
            '(a, s1, g1) ← parse_atom fuel' s g;
            let '(a', s1') := quantifier a s1 in
            '(b, s2, g2) ← parse_seq fuel' s1' g1;
            Ok (RSeq a' b, s2, g2)
      end
  end
with parse_atom (fuel : nat) (s : list ascii) (g : nat)
    : result (re * list ascii * nat) :=
  match fuel with
  | 0 => Raise Unsupported
  | S fuel' =>
      match s with
      | [] => Raise ReError
      | c :: s1 =>
          if Ascii.eqb c "(" then
            '(a, s2, g2) ← parse_alt fuel' s1 (S g);
            match s2 with
            | ")"%char :: s3 => Ok (RGroup g a, s3, g2)
            | _ => Raise ReError
            end
          else if Ascii.eqb c "[" then
            match s1 with
            | "^"%char :: s2 =>
                '(ranges, s3) ← parse_class s2 [];
                Ok (RClass true ranges, s3, g)
            | _ =>
                '(ranges, s3) ← parse_class s1 [];
                Ok (RClass false ranges, s3, g)
            end
          else if Ascii.eqb c "." then Ok (RAny, s1, g)
          else if Ascii.eqb c "\" then
            match s1 with
            | e :: s2 =>
                match class_of_escape e with
                | Some cls => Ok (cls, s2, g)
                | None => if is_alnum e then Raise Unsupported
                          else Ok (RChar e, s2, g)
                end
            | [] => Raise ReError
            end
          else if existsb (Ascii.eqb c) ["*"; "+"; "?"]%char then Raise ReError
          else if existsb (Ascii.eqb c) ["{"; "}"; "^"; "$"]%char
          then Raise Unsupported
          else Ok (RChar c, s1, g)
      end
  end.

(** A compiled pattern: its syntax tree and its number of groups. *)
Definition pattern : Type := re * nat.

Definition compile (src : string) : result pattern :=
  let s := list_ascii_of_string src in
  '(r, rest, g) ← parse_alt (3 * length s + 3) s 0;
  match rest with
  | [] => Ok (r, g)
  | _ => Raise ReError
  end.

(** [pattern.match(line)]: anchored at the start of [line] only. *)
Definition pmatch (p : pattern) (line : string)
    : option (list (option string)) :=
  matcher (fst p) line (replicate (snd p) None) (λ _ caps, Some caps).

(** *** base64 *)

Definition sextet (c : ascii) : option nat :=
  let n := nat_of_ascii c in
  if (65 <=? n) && (n <=? 90) then Some (n - 65)
  else if (97 <=? n) && (n <=? 122) then Some (n - 71)
  else if (48 <=? n) && (n <=? 57) then Some (n + 4)
  else if n =? 43 then Some 62
  else if n =? 47 then Some 63
  else None.

Definition byte_of_nat (n : nat) : byte := byte_of_ascii (ascii_of_nat n).

(** Decoding of the characters of the alphabet, four at a time. *)
Fixpoint decode_quads (s : list (option nat)) : result (list byte) :=
  match s with
  | [] => Ok []
  | Some a :: Some b :: None :: None :: _ =>
      Ok [byte_of_nat ((a * 64 + b) / 16)]
  | Some a :: Some b :: Some c :: None :: _ =>
      let v := (a * 64 + b) * 64 + c in
      Ok [byte_of_nat (v / 1024); byte_of_nat ((v / 4) mod 256)]
  | Some a :: Some b :: Some c :: Some d :: rest =>
      let v := ((a * 64 + b) * 64 + c) * 64 + d in
      cons (byte_of_nat (v / (256 * 256))) <$>
        (cons (byte_of_nat ((v / 256) mod 256)) <$>
           (cons (byte_of_nat (v mod 256)) <$> decode_quads rest))
  | _ => Raise BinasciiError
  end.

(** [b64decode(s)] without validation: characters outside the alphabet
    are dropped, [=] is kept as padding. *)
Definition b64decode (s : string) : result (list byte) :=
  decode_quads
    (omap (λ c, if Ascii.eqb c "=" then Some None
                else Some <$> sextet c)
          (list_ascii_of_string s)).

(** *** Processes and files *)

(** The lines of a text, each with its line end. *)
Fixpoint lines_go (s : string) (cur : string) : list string :=
  match s with
  | EmptyString => if String.eqb cur "" then [] else [String.rev cur]
  | String c s' =>
      if Ascii.eqb c "010" then String.rev (String c cur) :: lines_go s' ""
      else lines_go s' (String c cur)
  end.

Definition splitlines (s : string) : list string := lines_go s "".

Definition join_args (args : list string) : string :=
  String.concat " " args.

(** [Popen]: [echo] prints its arguments, [cat] the file it is given;
    no other program is installed. *)
Definition popen (argv : list string) (fs : files) : result (list string) :=
  match argv with
  | prog :: args =>
      if String.eqb prog "echo" then Ok [join_args args +:+ String "010" ""]
      else if String.eqb prog "cat" then
        Ok (flat_map (λ p, splitlines
                             (string_of_list_byte (default [] (fs !! p))))
                     args)
      else Raise OSError
  | [] => Raise IndexError
  end.

(** [eval]: the two boolean literals. *)
Definition eval (condition : string) (d : scope) : result value :=
  if String.eqb condition "True" then Ok (VBool true)
  else if String.eqb condition "False" then Ok (VBool false)
  else Raise Unsupported.

(** [urlopen]: one host serving one document. *)
Definition urlopen (url : string) : result (list byte) :=
  if String.eqb url "http://localhost/payload"
  then Ok (list_byte_of_string "remote payload")
  else Raise URLError.

#[export] Instance runtime : Runtime := {
  str_format := format;
  regex := pattern;
  re_compile := compile;
  re_match := pmatch;
  py_eval := eval;
  b64decode := b64decode;
  urlopen := urlopen;
  popen := popen;
  open_w := λ p, negb (String.prefix "/nonexistent/" p);
  tmp_name := λ n, "/tmp/tmp" +:+ pretty n
}.

End Py.

(** ** Threads and the shared pool

    The interleavings of a tree.  A thread runs [run_worker]; all that
    matters of it here is that it may call [Module.run] on a child any
    number of times, which is two separate actions, [thread.start()] and
    [self.thread_pool.append(thread)], and that it ends (normally or by an
    exception).  The main thread calls [run] on the root and then
    [wait_until_complete], whose [for] loop reads the list by position
    and so meets the entries appended while it waits. *)

Module Pool.

Inductive tstatus :=
  | Running                       (* inside [run_worker] *)
  | Registering (child : nat)     (* in [run]: child started, not yet appended *)
  | Finished.

Inductive main_pc :=
  | MStart                        (* about to call [run] on the root *)
  | MRegister (t : nat)           (* root started, not yet appended *)
  | MIter (i : nat)               (* the loop of [wait_until_complete] at position [i] *)
  | MJoin (i : nat) (t : nat)     (* blocked in [thread.join()] *)
  | MReturned.                    (* [wait_until_complete] has returned *)

Record pstate := PState {
  threads : list tstatus;         (* every thread started so far *)
  thread_pool : list nat;
  main : main_pc
}.

Inductive action :=
  | AMain                         (* the next step of the main thread *)
  | AStart (p : nat)              (* thread [p]: [thread.start()] of a new child *)
  | AAppend (p : nat)             (* thread [p]: [thread_pool.append(thread)] *)
  | AFinish (p : nat).            (* thread [p] ends *)

Definition init : pstate := PState [] [] MStart.

(** One atomic action; [None] when the action cannot be taken (a thread
    that is not at that point, or a [join] that still blocks). *)
Definition step (a : action) (σ : pstate) : option pstate :=
  match a with
  | AMain =>
      match main σ with
      | MStart =>
          Some (PState (threads σ ++ [Running]) (thread_pool σ)
                       (MRegister (length (threads σ))))
      | MRegister t =>
          Some (PState (threads σ) (thread_pool σ ++ [t]) (MIter 0))
      | MIter i =>
          match thread_pool σ !! i with
          | Some t => Some (PState (threads σ) (thread_pool σ) (MJoin i t))
          | None => Some (PState (threads σ) (thread_pool σ) MReturned)
          end
      | MJoin i t =>
          match threads σ !! t with
          | Some Finished =>
              Some (PState (threads σ) (thread_pool σ) (MIter (S i)))
          | _ => None
          end
      | MReturned => None
      end
  | AStart p =>
      match threads σ !! p with
      | Some Running =>
          Some (PState (<[p := Registering (length (threads σ))]> (threads σ)
                          ++ [Running])
                       (thread_pool σ) (main σ))
      | _ => None
      end
  | AAppend p =>
      match threads σ !! p with
      | Some (Registering c) =>
          Some (PState (<[p := Running]> (threads σ)) (thread_pool σ ++ [c])
                       (main σ))
      | _ => None
      end
  | AFinish p =>
      match threads σ !! p with
      | Some Running =>
          Some (PState (<[p := Finished]> (threads σ)) (thread_pool σ) (main σ))
      | _ => None
      end
  end.

(** A schedule, taken action by action. *)
Fixpoint exec (sched : list action) (σ : pstate) : option pstate :=
  match sched with
  | [] => Some σ
  | a :: sched' =>
      match step a σ with
      | Some σ' => exec sched' σ'
      | None => None
      end
  end.

(** The positions of the pool whose thread the main thread has joined. *)
Definition joined (pc : main_pc) (j : nat) : Prop :=
  match pc with
  | MIter i => j < i
  | MJoin i _ => j < i
  | MReturned => True
  | _ => False
  end.

(** What every reachable state satisfies. *)
Record inv (σ : pstate) : Prop := Inv {
  (** the threads already joined have finished *)
  inv_joined : ∀ j t,
    joined (main σ) j →
    thread_pool σ !! j = Some t → threads σ !! t = Some Finished;
  (** a thread is in the pool, or its parent is about to append it *)
  inv_known : ∀ t, t < length (threads σ) →
    t ∈ thread_pool σ
    ∨ (∃ p, p < t ∧ threads σ !! p = Some (Registering t))
    ∨ main σ = MRegister t;
  (** the thread joined is the one at the position of the loop *)
  inv_join : ∀ i t, main σ = MJoin i t → thread_pool σ !! i = Some t;
  (** the loop is never beyond the end of the list *)
  inv_bound : ∀ i, main σ = MIter i → i ≤ length (thread_pool σ);
  (** once returned, the pool is wholly joined *)
  inv_returned : main σ = MReturned →
    ∀ t s, threads σ !! t = Some s → s = Finished
}.

End Pool.

(** ** The test fixture of the repository ([TestModule.setUp]) *)

Module Fixture.
Import Py.

Definition nl : string := String "010" "".

Definition empty_state : state := State [] ∅ 0 [] [].

Definition leaf (name cmd : string) : cfg :=
  Cfg name cmd None None None None None None None None.

Definition on_match_cfg : cfg := leaf "on-match" "echo {var2}".

Definition always_cfg : cfg :=
  Cfg "always" "echo {var2}{var3}" (Some [("var3", VInt 42)]) None None
      (Some [PatternDef "(fo[0-9])[0-9]" ["var4"] (Some "{var4}")])
      None None None None.

Definition test_cfg : cfg :=
  Cfg "unittest" "echo {var1}" (Some [("var1", VStr "foo")]) None None
      (Some [PatternDef "(fo)o" ["var2"] (Some "{var2}")])
      (Some [FileDef "file1" "text" ("some text" +:+ nl +:+ "on two lines" +:+ nl);
             FileDef "file2" "base64" "c29tZSB0ZXh0Cm9uIHR3byBsaW5lcwo="])
      None
      (Some [on_match_cfg])
      (Some [always_cfg]).

(** [Module(cfg=self.cfg)]; [mod.run(False)]; then every thread runs. *)
Definition test_run (c : cfg) (fuel : nat) : M bool :=
  root ← Module_init c None;
  run root None;;
  run_tree fuel 0.

(** A node that is switched off, with children in both groups. *)
Definition disabled_cfg : cfg :=
  Cfg "disabled" "echo foo" None (Some (VBool false)) None
      (Some [PatternDef "(fo)o" ["var2"] None])
      (Some [FileDef "file1" "text" "some text"])
      None
      (Some [on_match_cfg])
      (Some [leaf "cleanup" "echo done"]).

(** A node whose condition resolves to ["False"]. *)
Definition conditional_cfg : cfg :=
  Cfg "gated" "echo foo" (Some [("go", VBool false)]) (Some (VBool true))
      (Some "{go}") None None None None
      (Some [leaf "cleanup" "echo done"]).

(** A node whose capture name refers to a variable that does not exist. *)
Definition broken_cfg : cfg :=
  Cfg "broken" "echo foo" None None None
      (Some [PatternDef "(fo)o" ["{nope}"] None])
      None None None
      (Some [leaf "cleanup" "echo done"]).

(** A node whose program is not installed, with a child to run always. *)
Definition absent_cfg : cfg :=
  Cfg "absent" "nmap -sV host" None None None None None None None
      (Some [leaf "cleanup" "echo done"]).

(** A node whose file content has a placeholder. *)
Definition templated_cfg : cfg :=
  Cfg "templated" "cat {f}" (Some [("x", VStr "v")]) None None None
      (Some [FileDef "f" "text" "{x}"])
      None None None.

(** A node with a file of the type that the interface table names. *)
Definition remote_cfg : cfg :=
  Cfg "remote" "cat {f}" None None None None
      (Some [FileDef "f" "remote" "http://localhost/payload"])
      None None None.

(** The same file with the type that the code knows. *)
Definition wget_cfg : cfg :=
  Cfg "wget" "cat {f}" None None None None
      (Some [FileDef "f" "wget" "http://localhost/payload"])
      None None None.

(** The root instance of a tree, as [Module(cfg=c)] makes it, and the
    state it is made in. *)
Definition root_of (c : cfg) : instance := Instance c 0 (c_name c).

Definition booted (c : cfg) : state := snd (Module_init c None empty_state).

(** What [prepare] hands to the loop, for the root of [c]. *)
Definition prepared (c : cfg)
    : list compiled * option string * list string :=
  match fst (prepare (root_of c) None (booted c)) with
  | Ok x => x
  | Raise _ => ([], None, [])
  end.

(** The compiled pattern of the fixture. *)
Definition foo_pattern : compiled :=
  Compiled (RSeq (RGroup 0 (RSeq (RChar "f") (RSeq (RChar "o") REps)))
                 (RSeq (RChar "o") REps), 1)
           ["var2"] (Some "{var2}").

(** A schedule in which a child and a grandchild are started while the
    main thread is already waiting. *)
Definition late_schedule : list Pool.action :=
  [Pool.AMain; Pool.AMain; Pool.AMain;
   Pool.AStart 0; Pool.AAppend 0; Pool.AStart 1; Pool.AFinish 0;
   Pool.AMain; Pool.AMain;
   Pool.AAppend 1; Pool.AFinish 1;
   Pool.AMain; Pool.AMain;
   Pool.AFinish 2;
   Pool.AMain; Pool.AMain].

End Fixture.

(** ** Further observations of a run *)

(** The files and the count of temporary files are the same in [σ'] as
    in [σ]. *)
Definition keeps_files (σ σ' : state) : Prop :=
  fs σ' = fs σ ∧ ntmp σ' = ntmp σ.

(** Nothing was started or recorded between [σ] and [σ']: the trace and
    the thread pool are the same. *)
Definition keeps_threads (σ σ' : state) : Prop :=
  trace σ' = trace σ ∧ pool σ' = pool σ.

(** The only paths whose content differs between [σ] and [σ'] are the
    temporary files made in between and, when there is a log directory,
    paths under it. *)
Definition writes_only `{Runtime} (save_logfiles : logdir) (σ σ' : state)
    : Prop :=
  ntmp σ ≤ ntmp σ'
  ∧ ∀ p,
      (∀ n, ntmp σ ≤ n < ntmp σ' → p ≠ tmp_name n) →
      (∀ dir name, save_logfiles = Some dir → p ≠ dir +:+ "/" +:+ name) →
      fs σ' !! p = fs σ !! p.


(** What a node whose dict is at [l] does to dicts, threads and pool
    between [σ] and [σ']: the other dicts that existed are untouched; its
    own dict loses no key; every child started is appended to the pool
    with the same [save_logfiles]; the children have dicts of their own,
    all new and pairwise distinct, which hold every key the node had. *)
Definition cascade_inv (l : loc) (save_logfiles : logdir) (σ σ' : state)
    : Prop :=
  l < length (heap σ) →
  frame (length (heap σ)) l σ σ'
  ∧ dom (heap σ !!! l) ⊆ dom (heap σ' !!! l)
  ∧ ∃ evs,
      trace σ' = trace σ ++ evs
      ∧ pool σ' = pool σ ++ ((λ sub, (sub, save_logfiles)) <$> started evs)
      ∧ NoDup (m_var <$> started evs)
      ∧ Forall (λ sub,
           length (heap σ) ≤ m_var sub
           ∧ m_var sub < length (heap σ')
           ∧ dom (heap σ !!! l) ⊆ dom (heap σ' !!! m_var sub))
          (started evs).

(** ** The shape of the pool *)

Module Registry.
Import Pool.



End Registry.

(** ** Further trees *)

Module Cases.
Import Py Fixture.











End Cases.

(** ** Tactics *)

(** Runs a primitive of the monad on the state at hand. *)
Ltac prim :=
  let Heq := fresh in
  intros ??? Heq; cbv [read_var alloc set_var emit register write truncate
                       NamedTemporaryFile lift get_state format mbind M_bind
                       mret M_ret] in Heq;
  simplify_eq; simpl.

(** * Verification *)

(** ** The monad *)

Lemma bind_run {A B} (m : M A) (f : A → M B) σ :
  (m ≫= f) σ = match m σ with
               | (Ok a, σ1) => f a σ1
               | (Raise e, σ1) => (Raise e, σ1)
               end.
Proof. reflexivity. Qed.

Lemma bind_ok {A B} (m : M A) (f : A → M B) σ b σ' :
  (m ≫= f) σ = (Ok b, σ') →
  ∃ a σ1, m σ = (Ok a, σ1) ∧ f a σ1 = (Ok b, σ').
Proof.
  rewrite bind_run. destruct (m σ) as [[a|e] σ1]; [eauto | discriminate].
Qed.

Lemma bind_raise {A B} (m : M A) (f : A → M B) σ e σ' :
  (m ≫= f) σ = (Raise e, σ') →
  m σ = (Raise e, σ') ∨ ∃ a σ1, m σ = (Ok a, σ1) ∧ f a σ1 = (Raise e, σ').
Proof.
  rewrite bind_run. destruct (m σ) as [[a|e1] σ1]; [eauto |].
  intros [= -> ->]. by left.
Qed.

Section Preserves.
Context (R : state → state → Prop) `{!PreOrder R}.

Lemma preserves_ret {A} (a : A) : preserves R (mret a).
Proof. intros σ r σ' [= <- <-]. reflexivity. Qed.

Lemma preserves_lift {A} (x : result A) : preserves R (lift x).
Proof. intros σ r σ' [= <- <-]. reflexivity. Qed.

Lemma preserves_get : preserves R get_state.
Proof. intros σ r σ' [= <- <-]. reflexivity. Qed.

Lemma preserves_bind {A B} (m : M A) (f : A → M B) :
  preserves R m → (∀ a, preserves R (f a)) → preserves R (m ≫= f).
Proof.
  intros Hm Hf σ r σ'. rewrite bind_run.
  destruct (m σ) as [[a|e] σ1] eqn:Em.
  - intros Hfa. etrans; [by eapply Hm | by eapply Hf].
  - intros [= <- <-]. by eapply Hm.
Qed.

Lemma preserves_for_each {A} (xs : list A) (body : A → M unit) :
  (∀ x, preserves R (body x)) → preserves R (for_each xs body).
Proof.
  intros Hbody. induction xs as [|x xs IH]; simpl.
  - apply preserves_ret.
  - apply preserves_bind; [apply Hbody | intros _; apply IH].
Qed.

End Preserves.

#[export] Instance framed_preorder n l : PreOrder (framed n l).
Proof.
  split.
  - intros σ _. split; [lia | done].
  - intros σ1 σ2 σ3 H12 H23 Hn.
    destruct (H12 Hn) as [Hlen1 Hsame1].
    destruct (H23 ltac:(lia)) as [Hlen2 Hsame2].
    split; [lia |]. intros l' Hl' Hne.
    rewrite Hsame2, Hsame1; done.
Qed.

#[export] Instance emits_preorder (P : list event → Prop) :
  P [] → (∀ a b, P a → P b → P (a ++ b)) → PreOrder (emits P).
Proof.
  intros Hnil Happ. split.
  - intros σ. exists []. by rewrite app_nil_r.
  - intros σ1 σ2 σ3 (a & Ha & HPa) (b & Hb & HPb).
    exists (a ++ b). split; [| by apply Happ].
    by rewrite Hb, Ha, app_assoc.
Qed.

Lemma framed_same_heap n l σ σ' : heap σ' = heap σ → framed n l σ σ'.
Proof. intros Hh _. split; rewrite Hh; [lia | done]. Qed.

Lemma emits_same_trace (P : list event → Prop) σ σ' :
  P [] → trace σ' = trace σ → emits P σ σ'.
Proof. intros HP Ht. exists []. by rewrite Ht, app_nil_r. Qed.

Lemma quiet_nil : quiet [].
Proof. done. Qed.

Lemma count_trigger_app g a b :
  count_trigger g (a ++ b) = count_trigger g a + count_trigger g b.
Proof. unfold count_trigger. by rewrite List.filter_app, length_app. Qed.

Lemma lines_of_app a b : lines_of (a ++ b) = lines_of a ++ lines_of b.
Proof.
  induction a as [|ev a IH]; [done |].
  destruct ev; simpl; by rewrite ?IH.
Qed.

Lemma started_app a b : started (a ++ b) = started a ++ started b.
Proof.
  induction a as [|ev a IH]; [done |].
  destruct ev; simpl; by rewrite ?IH.
Qed.

Lemma quiet_app a b : quiet a → quiet b → quiet (a ++ b).
Proof.
  intros [Ha1 Ha2] [Hb1 Hb2]. split.
  - rewrite count_trigger_app. lia.
  - by rewrite lines_of_app, Ha2, Hb2.
Qed.

#[export] Instance emits_quiet_preorder : PreOrder (emits quiet).
Proof. apply emits_preorder; [apply quiet_nil | apply quiet_app]. Qed.

Lemma silent_nil : silent [].
Proof. done. Qed.

Lemma silent_app a b : silent a → silent b → silent (a ++ b).
Proof.
  intros (Ha1 & Ha2 & Ha3) (Hb1 & Hb2 & Hb3). split; [| split].
  - intros g. rewrite count_trigger_app, Ha1, Hb1. done.
  - by rewrite lines_of_app, Ha2, Hb2.
  - by rewrite started_app, Ha3, Hb3.
Qed.

Lemma silent_quiet evs : silent evs → quiet evs.
Proof. intros (H1 & H2 & _). by split. Qed.

Lemma quiet_no_always evs : quiet evs → no_always evs.
Proof. by intros [? _]. Qed.

#[export] Instance emits_silent_preorder : PreOrder (emits silent).
Proof. apply emits_preorder; [apply silent_nil | apply silent_app]. Qed.

#[export] Instance emits_no_always_preorder : PreOrder (emits no_always).
Proof.
  apply emits_preorder; [done |]. unfold no_always. intros a b Ha Hb.
  rewrite count_trigger_app. lia.
Qed.

Lemma emits_weaken (P Q : list event → Prop) σ σ' :
  (∀ evs, P evs → Q evs) → emits P σ σ' → emits Q σ σ'.
Proof. intros HPQ (evs & Ht & HP). exists evs. auto. Qed.

(** ** The primitives *)

Section Engine.
Context `{Runtime}.

Lemma read_var_run l σ : read_var l σ = (Ok (heap σ !!! l), σ).
Proof. done. Qed.

Lemma format_run l t σ : format l t σ = (str_format t (heap σ !!! l), σ).
Proof.
  unfold format. rewrite bind_run, read_var_run. done.
Qed.

Lemma format_framed n l l2 t : preserves (framed n l) (format l2 t).
Proof.
  intros σ r σ'. rewrite format_run. intros [= <- <-]. reflexivity.
Qed.

Lemma format_emits P l t : P [] → preserves (emits P) (format l t).
Proof.
  intros HP σ r σ'. rewrite format_run. intros [= <- <-].
  by apply emits_same_trace.
Qed.

Lemma set_var_framed n l k v : preserves (framed n l) (set_var l k v).
Proof.
  prim. intros Hn. split; simpl.
  - by rewrite length_alter.
  - intros l' _ Hne. by rewrite list_lookup_alter_ne.
Qed.

Lemma set_var_new_framed n l l2 k v σ r σ' :
  n ≤ l2 → set_var l2 k v σ = (r, σ') → framed n l σ σ'.
Proof.
  intros Hl2 [= <- <-] Hn. split; simpl.
  - by rewrite length_alter.
  - intros l' Hl' _. rewrite list_lookup_alter_ne; [done | lia].
Qed.

Lemma set_var_emits P l k v : P [] → preserves (emits P) (set_var l k v).
Proof. intros HP. prim. by apply emits_same_trace. Qed.

Lemma emit_framed n l ev : preserves (framed n l) (emit ev).
Proof. prim. by apply framed_same_heap. Qed.

Lemma emit_emits (P : list event → Prop) ev :
  P [ev] → preserves (emits P) (emit ev).
Proof. intros HP. prim. by exists [ev]. Qed.

Lemma register_framed n l t : preserves (framed n l) (register t).
Proof. prim. by apply framed_same_heap. Qed.

Lemma register_emits P t : P [] → preserves (emits P) (register t).
Proof. intros HP. prim. by apply emits_same_trace. Qed.

Lemma write_framed n l p data : preserves (framed n l) (write p data).
Proof. prim. by apply framed_same_heap. Qed.

Lemma write_emits P p data : P [] → preserves (emits P) (write p data).
Proof. intros HP. prim. by apply emits_same_trace. Qed.

Lemma truncate_framed n l p : preserves (framed n l) (truncate p).
Proof. prim. by apply framed_same_heap. Qed.

Lemma truncate_emits P p : P [] → preserves (emits P) (truncate p).
Proof. intros HP. prim. by apply emits_same_trace. Qed.

Lemma tmpfile_framed n l : preserves (framed n l) NamedTemporaryFile.
Proof. prim. by apply framed_same_heap. Qed.

Lemma tmpfile_emits P : P [] → preserves (emits P) NamedTemporaryFile.
Proof. intros HP. prim. by apply emits_same_trace. Qed.

(** ** [Module.__init__] *)

Lemma store_vars_run l vs σ :
  for_each vs (λ kv, set_var l kv.1 kv.2) σ
  = (Ok tt, State (alter (λ d, foldl (λ d kv, <[fst kv := snd kv]> d) d vs)
                         l (heap σ))
                  (fs σ) (ntmp σ) (pool σ) (trace σ)).
Proof.
  revert σ. induction vs as [|[k v] vs IH]; intros σ; simpl.
  - unfold mret, M_ret. rewrite list_alter_id by done. by destruct σ.
  - rewrite bind_run. unfold set_var at 1. rewrite IH. simpl.
    do 2 f_equal. by rewrite list_alter_alter_eq.
Qed.

Lemma Module_init_run c var σ :
  Module_init c var σ
  = (match str_format (c_name c) (heap (after_init c var σ) !!! length (heap σ)) with
     | Ok name => Ok (Instance c (length (heap σ)) name)
     | Raise e => Raise e
     end, after_init c var σ).
Proof.
  unfold Module_init.
  set (d := match var with Some l => heap σ !!! l | None => ∅ end).
  assert (Hd : (match var with Some l => read_var l | None => mret ∅ end) σ
               = (Ok d, σ)) by (by destruct var).
  rewrite bind_run, Hd, bind_run. unfold alloc at 1.
  rewrite bind_run.
  assert (Hvs : ∀ σ1, (match c_vars c with
                 | Some vs => for_each vs (λ kv, set_var (length (heap σ)) kv.1 kv.2)
                 | None => mret tt
                 end) σ1
               = (Ok tt, State (alter (λ d, foldl (λ d kv, <[fst kv := snd kv]> d) d
                                              (default [] (c_vars c)))
                                      (length (heap σ)) (heap σ1))
                               (fs σ1) (ntmp σ1) (pool σ1) (trace σ1))).
  { intros σ1. destruct (c_vars c) as [vs|]; [apply store_vars_run |].
    simpl. unfold mret, M_ret. rewrite list_alter_id by done.
    by destruct σ1. }
  rewrite Hvs. simpl. rewrite bind_run, format_run. simpl.
  assert (Hh : alter (λ d0, foldl (λ d1 kv, <[kv.1:=kv.2]> d1) d0
                              (default [] (c_vars c)))
                 (length (heap σ)) (heap σ ++ [d])
               = heap σ ++ [overlay (c_vars c) d]).
  { rewrite alter_app_r_alt by lia. by rewrite Nat.sub_diag. }
  rewrite Hh. unfold after_init. fold d.
  destruct (str_format _ _); done.
Qed.

Lemma Module_init_framed n l c var : preserves (framed n l) (Module_init c var).
Proof.
  intros σ r σ'. rewrite Module_init_run. intros [= _ <-] Hn.
  split; simpl.
  - rewrite length_app. lia.
  - intros l' Hl' _. rewrite lookup_app_l; [done | lia].
Qed.

Lemma Module_init_emits P c var :
  P [] → preserves (emits P) (Module_init c var).
Proof.
  intros HP σ r σ'. rewrite Module_init_run. intros [= _ <-].
  by apply emits_same_trace.
Qed.

(** ** [Module.run] and [Module.run_submodules] *)

Lemma run_run sub slf σ :
  run sub slf σ
  = (Ok tt, State (heap σ) (fs σ) (ntmp σ) (pool σ ++ [(sub, slf)])
                  (trace σ ++ [EvStart sub])).
Proof. reflexivity. Qed.

Lemma run_framed n l sub slf : preserves (framed n l) (run sub slf).
Proof.
  intros σ r σ'. rewrite run_run. intros [= _ <-]. by apply framed_same_heap.
Qed.

Lemma run_emits (P : list event → Prop) sub slf :
  P [EvStart sub] → preserves (emits P) (run sub slf).
Proof.
  intros HP σ r σ'. rewrite run_run. intros [= _ <-]. by exists [EvStart sub].
Qed.

(** The loop of [run_submodules], when no name template fails. *)
Lemma spawn_ok l slf posts σ σ' :
  l < length (heap σ) →
  for_each posts (λ post_task,
    sub_task ← Module_init post_task (Some l); run sub_task slf) σ
  = (Ok tt, σ') →
  ∃ subs,
    spawned (heap σ !!! l) (length (heap σ)) posts subs
    ∧ σ' = State (heap σ ++ ((λ post, overlay (c_vars post) (heap σ !!! l)) <$> posts))
                 (fs σ) (ntmp σ)
                 (pool σ ++ map (λ sub, (sub, slf)) subs)
                 (trace σ ++ map EvStart subs).
Proof.
  revert σ. induction posts as [|post posts IH]; intros σ Hl; simpl.
  - intros [= <-]. exists []. split; [by split |].
    rewrite !app_nil_r. by destruct σ.
  - intros Hrun. apply bind_ok in Hrun as ([] & σ1 & Hfirst & Hrest).
    apply bind_ok in Hfirst as (sub & σ0 & Hinit & Hstart).
    rewrite Module_init_run in Hinit.
    destruct (str_format (c_name post) _) as [name|] eqn:Hname; [| done].
    injection Hinit as <- <-. rewrite run_run in Hstart.
    injection Hstart as <-. simpl in *.
    rewrite lookup_total_app_r, Nat.sub_diag in Hname by lia.
    apply IH in Hrest as (subs & [Hvars Hsubs] & ->);
      [| simpl; rewrite length_app; lia].
    simpl in *. rewrite lookup_total_app_l in * by done.
    rewrite length_app in Hvars. simpl in Hvars.
    exists (Instance post (length (heap σ)) name :: subs). split.
    + split.
      * rewrite fmap_cons. simpl. f_equal. rewrite Hvars.
        by rewrite Nat.add_1_r.
      * constructor; [done |]. done.
    + f_equal; by rewrite <- app_assoc.
Qed.

Lemma spawn_framed n l l2 slf posts :
  preserves (framed n l) (for_each posts (λ post_task,
    sub_task ← Module_init post_task (Some l2); run sub_task slf)).
Proof.
  apply preserves_for_each; [apply _ |]. intros post.
  apply preserves_bind; [apply _ | apply Module_init_framed |].
  intros sub. apply run_framed.
Qed.

Lemma spawn_emits (P : list event → Prop) l slf posts :
  P [] → (∀ a b, P a → P b → P (a ++ b)) → (∀ sub, P [EvStart sub]) →
  preserves (emits P) (for_each posts (λ post_task,
    sub_task ← Module_init post_task (Some l); run sub_task slf)).
Proof.
  intros Hnil Happ Hstart.
  pose proof (emits_preorder P Hnil Happ).
  apply preserves_for_each; [done |]. intros post.
  apply preserves_bind; [done | by apply Module_init_emits |].
  intros sub. by apply run_emits.
Qed.

Lemma count_trigger_starts g subs : count_trigger g (map EvStart subs) = 0.
Proof. induction subs; done. Qed.

Lemma lines_of_starts subs : lines_of (map EvStart subs) = [].
Proof. induction subs; done. Qed.

Lemma started_starts subs : started (map EvStart subs) = subs.
Proof. induction subs; [done | simpl; by f_equal]. Qed.

Lemma count_trigger_cascade g g' l subs :
  count_trigger g (EvTrigger l g' :: map EvStart subs)
  = if modgroup_eqb g g' then 1 else 0.
Proof.
  unfold count_trigger. simpl. fold (count_trigger g (map EvStart subs)).
  destruct (modgroup_eqb g g'); simpl;
    fold (count_trigger g (map EvStart subs));
    by rewrite count_trigger_starts.
Qed.

(** Whatever its outcome, [run_submodules] adds one trigger of its group
    and then only starts of children. *)
Lemma run_submodules_trace m g slf σ r σ' :
  run_submodules m g slf σ = (r, σ') →
  ∃ subs, trace σ' = trace σ ++ EvTrigger (m_var m) g :: map EvStart subs.
Proof.
  unfold run_submodules. rewrite bind_run. unfold emit at 1.
  destruct (submodules (m_cfg m) g) as [posts|].
  - intros Hloop.
    eapply (spawn_emits (λ evs, ∃ subs, evs = map EvStart subs)) in Hloop.
    + destruct Hloop as (evs & Ht & subs & ->). exists subs.
      rewrite Ht. simpl. by rewrite <- app_assoc.
    + by exists [].
    + intros a b [sa ->] [sb ->]. exists (sa ++ sb). by rewrite map_app.
    + intros sub. by exists [sub].
  - intros [= _ <-]. by exists [].
Qed.

Lemma run_submodules_framed n l m g slf :
  preserves (framed n l) (run_submodules m g slf).
Proof.
  unfold run_submodules.
  apply preserves_bind; [apply _ | apply emit_framed |]. intros _.
  destruct (submodules (m_cfg m) g); [apply spawn_framed |].
  apply preserves_ret, _.
Qed.

(** When no child fails to be built, every definition of the group is
    instantiated once, each on its own copy of the scope of [m]. *)
Lemma run_submodules_ok m g slf σ σ' :
  m_var m < length (heap σ) →
  run_submodules m g slf σ = (Ok tt, σ') →
  ∃ subs,
    let posts := default [] (submodules (m_cfg m) g) in
    let parent := heap σ !!! m_var m in
    spawned parent (length (heap σ)) posts subs
    ∧ σ' = State (heap σ ++ ((λ post, overlay (c_vars post) parent) <$> posts))
                 (fs σ) (ntmp σ)
                 (pool σ ++ map (λ sub, (sub, slf)) subs)
                 (trace σ ++ EvTrigger (m_var m) g :: map EvStart subs).
Proof.
  intros Hl. unfold run_submodules. rewrite bind_run. unfold emit at 1.
  destruct (submodules (m_cfg m) g) as [posts|]; simpl.
  - intros Hloop. apply spawn_ok in Hloop as (subs & Hsp & ->); [| done].
    exists subs. split; [done |]. simpl. by rewrite <- app_assoc.
  - intros [= <-]. exists []. split; [by split |]. by rewrite !app_nil_r.
Qed.

(** ** Capture binding *)

Lemma bind_groups_run m mt groups idx σ :
  m_var m < length (heap σ) →
  ∃ d,
    bind_groups m mt groups idx σ
    = (match bound (heap σ !!! m_var m) mt groups idx with
       | Ok _ => Ok tt
       | Raise e => Raise e
       end,
       State (<[m_var m := d]> (heap σ)) (fs σ) (ntmp σ) (pool σ) (trace σ))
    ∧ ∀ d', bound (heap σ !!! m_var m) mt groups idx = Ok d' → d = d'.
Proof.
  revert idx σ. induction groups as [|group groups IH]; intros idx σ Hl; simpl.
  - exists (heap σ !!! m_var m). split; [| by intros ? [= <-]].
    unfold mret, M_ret. f_equal. destruct σ; simpl in *. f_equal.
    symmetry. apply list_insert_id. by apply list_lookup_lookup_total_lt.
  - rewrite bind_run. unfold lift at 1.
    destruct (match_group mt idx) as [v|e].
    + rewrite bind_run, format_run.
      destruct (str_format group _) as [name|e].
      * rewrite bind_run. unfold set_var at 1.
        set (σ1 := State _ _ _ _ _).
        destruct (IH (S idx) σ1) as (d & Hrun & Hd).
        { simpl. by rewrite length_alter. }
        assert (Hcell : heap σ1 !!! m_var m = <[name:=v]> (heap σ !!! m_var m)).
        { simpl. by apply list_lookup_total_alter_eq. }
        rewrite Hcell in Hrun, Hd. exists d. split; [| done].
        rewrite Hrun. simpl. do 2 f_equal.
        apply list_eq. intros i. destruct (decide (i = m_var m)) as [->|].
        -- rewrite !list_lookup_insert_eq; [done | done |].
           by rewrite length_alter.
        -- rewrite !list_lookup_insert_ne by done.
           by rewrite list_lookup_alter_ne.
      * exists (heap σ !!! m_var m). split; [| done].
        f_equal. destruct σ; simpl in *. f_equal.
        symmetry. apply list_insert_id. by apply list_lookup_lookup_total_lt.
    + exists (heap σ !!! m_var m). split; [| done].
      f_equal. destruct σ; simpl in *. f_equal.
      symmetry. apply list_insert_id. by apply list_lookup_lookup_total_lt.
Qed.

Lemma bind_groups_framed n l m mt groups idx :
  l = m_var m → preserves (framed n l) (bind_groups m mt groups idx).
Proof.
  intros ->. revert idx. induction groups as [|group groups IH]; intros idx.
  - apply preserves_ret, _.
  - simpl. apply preserves_bind; [apply _ | apply preserves_lift, _ |].
    intros v. apply preserves_bind; [apply _ | apply format_framed |].
    intros name. apply preserves_bind; [apply _ | apply set_var_framed |].
    intros _. apply IH.
Qed.

Lemma bind_groups_emits P m mt groups idx :
  P [] → (∀ a b, P a → P b → P (a ++ b)) →
  preserves (emits P) (bind_groups m mt groups idx).
Proof.
  intros Hnil Happ. pose proof (emits_preorder P Hnil Happ).
  revert idx. induction groups as [|group groups IH]; intros idx.
  - by apply preserves_ret.
  - simpl. apply preserves_bind; [done | by apply preserves_lift |].
    intros v. apply preserves_bind; [done | by apply format_emits |].
    intros name. apply preserves_bind; [done | by apply set_var_emits |].
    intros _. apply IH.
Qed.

(** ** The pattern loop *)

Lemma run_submodules_emits (P : list event → Prop) m g slf :
  (∀ subs, P (EvTrigger (m_var m) g :: map EvStart subs)) →
  preserves (emits P) (run_submodules m g slf).
Proof.
  intros HP σ r σ' Hrun.
  apply run_submodules_trace in Hrun as (subs & Ht). by exists (EvTrigger (m_var m) g :: map EvStart subs).
Qed.

Lemma cascade_quiet l subs : quiet (EvTrigger l OnMatch :: map EvStart subs).
Proof.
  split.
  - by rewrite count_trigger_cascade.
  - simpl. apply lines_of_starts.
Qed.

Lemma log_match_framed n l m log : preserves (framed n l) (log_match m log).
Proof.
  destruct log as [log|]; simpl; [| apply preserves_ret, _].
  destruct (String.eqb log ""); [apply preserves_ret, _ |].
  apply preserves_bind; [apply _ | apply format_framed |].
  intros msg. apply emit_framed.
Qed.

Lemma log_match_emits m log : preserves (emits silent) (log_match m log).
Proof.
  destruct log as [log|]; simpl; [| apply preserves_ret, _].
  destruct (String.eqb log ""); [apply preserves_ret, _ |].
  apply preserves_bind; [apply _ | by apply format_emits |].
  intros msg. by apply emit_emits.
Qed.

Lemma on_pattern_eq m slf line p :
  on_pattern m slf line p
  = match re_match (cp_pattern p) line with
    | Some mt =>
        bind_groups m mt (cp_groups p) 1;;
        log_match m (cp_log p);;
        run_submodules m OnMatch slf
    | None => mret tt
    end.
Proof. reflexivity. Qed.

Lemma on_pattern_framed n m slf line p :
  preserves (framed n (m_var m)) (on_pattern m slf line p).
Proof.
  rewrite on_pattern_eq. destruct (re_match _ _) as [mt|];
    [| apply preserves_ret, _].
  apply preserves_bind; [apply _ | by apply bind_groups_framed |]. intros _.
  apply preserves_bind; [apply _ | apply log_match_framed |]. intros _.
  apply run_submodules_framed.
Qed.

Lemma on_pattern_quiet m slf line p :
  preserves (emits quiet) (on_pattern m slf line p).
Proof.
  rewrite on_pattern_eq. destruct (re_match _ _) as [mt|];
    [| apply preserves_ret, _].
  apply preserves_bind; [apply _ | |].
  { apply bind_groups_emits; [apply quiet_nil | apply quiet_app]. }
  intros _. apply preserves_bind; [apply _ | |].
  { intros σ r σ' Hlog. eapply emits_weaken; [apply silent_quiet |].
    by eapply log_match_emits. }
  intros _. apply run_submodules_emits. apply cascade_quiet.
Qed.

(** A pattern that matches triggers the on-match group once, one that
    does not triggers nothing. *)
Lemma on_pattern_count m slf line p σ σ' :
  on_pattern m slf line p σ = (Ok tt, σ') →
  ∃ evs, trace σ' = trace σ ++ evs ∧ quiet evs
         ∧ count_trigger OnMatch evs = if matches line p then 1 else 0.
Proof.
  rewrite on_pattern_eq. unfold matches.
  destruct (re_match _ _) as [mt|].
  - intros Hrun.
    apply bind_ok in Hrun as ([] & σ1 & Hbind & Hrun).
    apply bind_ok in Hrun as ([] & σ2 & Hlog & Hrun).
    eapply (bind_groups_emits silent) in Hbind as (a & Ha & Hsa);
      [| apply silent_nil | apply silent_app].
    apply log_match_emits in Hlog as (b & Hb & Hsb).
    apply run_submodules_trace in Hrun as (subs & Hc).
    exists (a ++ b ++ EvTrigger (m_var m) OnMatch :: map EvStart subs).
    split; [by rewrite Hc, Hb, Ha, <- !app_assoc |]. split.
    + apply quiet_app; [by apply silent_quiet |].
      apply quiet_app; [by apply silent_quiet | apply cascade_quiet].
    + rewrite !count_trigger_app, count_trigger_cascade.
      destruct Hsa as [-> _], Hsb as [-> _]. done.
  - intros [= <-]. exists []. by rewrite app_nil_r.
Qed.

Lemma patterns_count m slf line ps σ σ' :
  for_each ps (on_pattern m slf line) σ = (Ok tt, σ') →
  ∃ evs, trace σ' = trace σ ++ evs ∧ quiet evs
         ∧ count_trigger OnMatch evs = length (List.filter (matches line) ps).
Proof.
  revert σ. induction ps as [|p ps IH]; intros σ; simpl.
  - intros [= <-]. exists []. by rewrite app_nil_r.
  - intros Hrun. apply bind_ok in Hrun as ([] & σ1 & Hp & Hrest).
    apply on_pattern_count in Hp as (a & Ha & Hqa & Hca).
    apply IH in Hrest as (b & Hb & Hqb & Hcb).
    exists (a ++ b). split; [by rewrite Hb, Ha, app_assoc |].
    split; [by apply quiet_app |].
    rewrite count_trigger_app, Hca, Hcb. by destruct (matches line p).
Qed.

Lemma exec_cmd_yield_trace m fp line σ r σ' :
  exec_cmd_yield m fp line σ = (r, σ') →
  r = Ok tt ∧ trace σ' = trace σ ++ [EvLine (m_var m) line].
Proof. destruct fp; intros [= <- <-]; done. Qed.

Lemma exec_cmd_yield_framed n l m fp line :
  preserves (framed n l) (exec_cmd_yield m fp line).
Proof.
  unfold exec_cmd_yield. apply preserves_bind; [apply _ | |].
  - destruct fp; [apply write_framed | apply preserves_ret, _].
  - intros _. apply emit_framed.
Qed.

(** ** The line loop *)

Lemma consume_framed n m slf ps fp lines :
  preserves (framed n (m_var m)) (consume m slf ps fp lines).
Proof.
  apply preserves_for_each; [apply _ |]. intros line.
  apply preserves_bind; [apply _ | apply exec_cmd_yield_framed |]. intros _.
  apply preserves_for_each; [apply _ |]. intros p. apply on_pattern_framed.
Qed.

(** Whatever happens in the loop, it does not trigger [Always]. *)
Lemma consume_no_always m slf ps fp lines :
  preserves (emits no_always) (consume m slf ps fp lines).
Proof.
  apply preserves_for_each; [apply _ |]. intros line.
  apply preserves_bind; [apply _ | |].
  - intros σ r σ' Hy. apply exec_cmd_yield_trace in Hy as [_ Ht]. by eexists.
  - intros _. apply preserves_for_each; [apply _ |]. intros p σ r σ' Hp.
    eapply emits_weaken; [apply quiet_no_always |].
    by eapply on_pattern_quiet.
Qed.

(** A loop that ends normally has read every line, in order, and has
    triggered the on-match group once per match occurrence. *)
Lemma consume_ok m slf ps fp lines σ σ' :
  consume m slf ps fp lines σ = (Ok tt, σ') →
  ∃ evs, trace σ' = trace σ ++ evs
         ∧ lines_of evs = lines
         ∧ count_trigger Always evs = 0
         ∧ count_trigger OnMatch evs = length (occurrences ps lines).
Proof.
  unfold consume. revert σ. induction lines as [|line lines IH]; intros σ; simpl.
  - intros [= <-]. exists []. by rewrite app_nil_r.
  - intros Hrun. apply bind_ok in Hrun as ([] & σ2 & Hline & Hrest).
    apply bind_ok in Hline as ([] & σ1 & Hy & Hps).
    apply exec_cmd_yield_trace in Hy as [_ Hy].
    apply patterns_count in Hps as (b & Hb & [Hb1 Hb2] & Hcb).
    apply IH in Hrest as (c & Hc & Hlc & Hac & Hoc).
    exists (EvLine (m_var m) line :: b ++ c).
    split; [by rewrite Hc, Hb, Hy, <- !app_assoc |].
    simpl. rewrite lines_of_app, Hb2, Hlc. split; [done |].
    change (EvLine (m_var m) line :: b ++ c)
      with ([EvLine (m_var m) line] ++ b ++ c).
    rewrite !count_trigger_app, Hb1, Hac, Hcb, Hoc.
    unfold occurrences. simpl. rewrite length_app, length_map. done.
Qed.

(** ** Before the loop *)

#[export] Instance same_state_preorder : PreOrder (λ σ σ' : state, σ' = σ).
Proof. split; [done | by intros ??? -> ->]. Qed.

Lemma format_same l t : preserves (λ σ σ', σ' = σ) (format l t).
Proof. intros σ r σ'. rewrite format_run. by intros [= _ <-]. Qed.

Lemma should_not_run_same m : preserves (λ σ σ', σ' = σ) (should_not_run m).
Proof.
  unfold should_not_run.
  destruct (match c_enabled (m_cfg m) with Some v => negb (truthy v) | None => false end);
    [apply preserves_ret, _ |].
  destruct (c_condition (m_cfg m)) as [t|]; [| apply preserves_ret, _].
  apply preserves_bind; [apply _ | apply format_same |]. intros cond.
  apply preserves_bind; [apply _ | by intros ??? [= _ <-] |]. intros d.
  apply preserves_bind; [apply _ | apply preserves_lift, _ |]. intros v.
  apply preserves_ret, _.
Qed.

Lemma compile_patterns_same m pds :
  preserves (λ σ σ', σ' = σ) (compile_patterns m pds).
Proof.
  induction pds as [|pd pds IH]; simpl; [apply preserves_ret, _ |].
  apply preserves_bind; [apply _ | apply format_same |]. intros src.
  apply preserves_bind; [apply _ | apply preserves_lift, _ |]. intros r.
  apply preserves_bind; [apply _ | apply IH |]. intros cps.
  apply preserves_ret, _.
Qed.

Lemma logfile_of_same m slf : preserves (λ σ σ', σ' = σ) (logfile_of m slf).
Proof.
  unfold logfile_of. destruct slf as [dir|]; [| apply preserves_ret, _].
  destruct (c_logfile (m_cfg m)) as [t|]; [| apply preserves_ret, _].
  destruct (String.eqb dir ""); [apply preserves_ret, _ |].
  apply preserves_bind; [apply _ | apply format_same |]. intros name.
  apply preserves_ret, _.
Qed.

Lemma same_framed {A} n l (m : M A) :
  preserves (λ σ σ', σ' = σ) m → preserves (framed n l) m.
Proof. intros Hm σ r σ' Hrun. apply Hm in Hrun as ->. reflexivity. Qed.

Lemma same_emits {A} P (m : M A) :
  P [] → preserves (λ σ σ', σ' = σ) m → preserves (emits P) m.
Proof.
  intros HP Hm σ r σ' Hrun. apply Hm in Hrun as ->. by apply emits_same_trace.
Qed.

Lemma unpack_file_framed n m fd :
  preserves (framed n (m_var m)) (unpack_file m fd).
Proof.
  unfold unpack_file.
  apply preserves_bind; [apply _ | apply tmpfile_framed |]. intros path.
  apply preserves_bind; [apply _ | apply set_var_framed |]. intros _.
  repeat case_match; try apply write_framed; try apply preserves_ret, _;
    (apply preserves_bind; [apply _ | apply preserves_lift, _ |]);
    intros data; apply write_framed.
Qed.

Lemma unpack_file_emits m fd : preserves (emits silent) (unpack_file m fd).
Proof.
  unfold unpack_file.
  apply preserves_bind; [apply _ | by apply tmpfile_emits |]. intros path.
  apply preserves_bind; [apply _ | by apply set_var_emits |]. intros _.
  repeat case_match; try (by apply write_emits); try apply preserves_ret, _;
    (apply preserves_bind; [apply _ | apply preserves_lift, _ |]);
    intros data; by apply write_emits.
Qed.

Lemma unpack_files_framed n m : preserves (framed n (m_var m)) (unpack_files m).
Proof.
  unfold unpack_files. destruct (c_files (m_cfg m)); [| apply preserves_ret, _].
  apply preserves_for_each; [apply _ | apply unpack_file_framed].
Qed.

Lemma unpack_files_emits m : preserves (emits silent) (unpack_files m).
Proof.
  unfold unpack_files. destruct (c_files (m_cfg m)); [| apply preserves_ret, _].
  apply preserves_for_each; [apply _ | apply unpack_file_emits].
Qed.


Lemma pre_spawn_emits m slf : preserves (emits silent) (pre_spawn m slf).
Proof.
  unfold pre_spawn.
  apply preserves_bind; [apply _ | apply unpack_files_emits |]. intros _.
  apply preserves_bind; [apply _ | by apply format_emits |]. intros cmd.
  apply preserves_bind; [apply _ | |].
  { destruct (c_patterns (m_cfg m));
      [by apply same_emits, compile_patterns_same | apply preserves_ret, _]. }
  intros ps. apply preserves_bind;
    [apply _ | by apply same_emits, logfile_of_same |].
  intros logfile. apply preserves_ret, _.
Qed.

Lemma exec_cmd_start_framed n l m cmd logfile :
  preserves (framed n l) (exec_cmd_start m cmd logfile).
Proof.
  unfold exec_cmd_start.
  apply preserves_bind; [apply _ | apply emit_framed |]. intros _.
  apply preserves_bind; [apply _ | apply preserves_get, _ |]. intros σ0.
  apply preserves_bind; [apply _ | apply preserves_lift, _ |]. intros lines.
  apply preserves_bind; [apply _ | | intros fp; apply preserves_ret, _].
  destruct logfile as [p|]; [| apply preserves_ret, _].
  destruct (open_w p).
  - apply preserves_bind; [apply _ | apply truncate_framed |].
    intros _. apply preserves_ret, _.
  - apply preserves_bind; [apply _ | apply emit_framed |].
    intros _. apply preserves_ret, _.
Qed.

Lemma exec_cmd_start_emits m cmd logfile :
  preserves (emits silent) (exec_cmd_start m cmd logfile).
Proof.
  unfold exec_cmd_start.
  apply preserves_bind; [apply _ | by apply emit_emits |]. intros _.
  apply preserves_bind; [apply _ | apply preserves_get, _ |]. intros σ0.
  apply preserves_bind; [apply _ | apply preserves_lift, _ |]. intros lines.
  apply preserves_bind; [apply _ | | intros fp; apply preserves_ret, _].
  destruct logfile as [p|]; [| apply preserves_ret, _].
  destruct (open_w p).
  - apply preserves_bind; [apply _ | by apply truncate_emits |].
    intros _. apply preserves_ret, _.
  - apply preserves_bind; [apply _ | by apply emit_emits |].
    intros _. apply preserves_ret, _.
Qed.


Lemma prepare_emits m slf : preserves (emits silent) (prepare m slf).
Proof.
  unfold prepare.
  apply preserves_bind; [apply _ | apply pre_spawn_emits |].
  intros [[cmd ps] logfile].
  apply preserves_bind; [apply _ | apply exec_cmd_start_emits |].
  intros [lines fp]. apply preserves_ret, _.
Qed.

(** [run_body], by phases. *)
Lemma run_body_eq m slf σ :
  run_body m slf σ
  = ('(ps, fp, lines) ← prepare m slf;
     consume m slf ps fp lines;;
     run_submodules m Always slf) σ.
Proof.
  unfold run_body, prepare, pre_spawn.
  rewrite !bind_run.
  destruct (unpack_files m σ) as [[[]|e] σ1]; [| done].
  rewrite !bind_run.
  destruct (format _ _ σ1) as [[cmd|e] σ2]; [| done].
  rewrite !bind_run.
  destruct (match c_patterns (m_cfg m) with
            | Some pds => compile_patterns m pds
            | None => mret []
            end σ2) as [[ps|e] σ3]; [| done].
  rewrite !bind_run.
  destruct (logfile_of m slf σ3) as [[logfile|e] σ4]; [| done].
  simpl. rewrite !bind_run.
  destruct (exec_cmd_start m cmd logfile σ4) as [[[lines fp]|e] σ5]; done.
Qed.

(** ** File provisioning *)

Lemma unpack_file_run m fd σ :
  unpack_file m fd σ
  = match payload fd with
    | Ok data => (Ok tt, provisioned (m_var m) (f_name fd) data σ)
    | Raise e => (Raise e, provisioned (m_var m) (f_name fd) [] σ)
    end.
Proof.
  unfold unpack_file, payload, provisioned.
  rewrite bind_run. unfold NamedTemporaryFile at 1.
  rewrite bind_run. unfold set_var at 1.
  assert (Hw : ∀ data h n pl tr,
            write (tmp_name (ntmp σ)) data
              (State h (<[tmp_name (ntmp σ) := []]> (fs σ)) n pl tr)
            = (Ok tt, State h (<[tmp_name (ntmp σ) := data]> (fs σ)) n pl tr)).
  { intros. unfold write. simpl.
    rewrite lookup_insert_eq, insert_insert_eq. done. }
  destruct (String.eqb (f_type fd) "text"); [apply Hw |].
  destruct (String.eqb (f_type fd) "base64").
  { rewrite bind_run. unfold lift at 1.
    destruct (b64decode _); [apply Hw | done]. }
  destruct (String.eqb (f_type fd) "wget").
  { rewrite bind_run. unfold lift at 1.
    destruct (urlopen _); [apply Hw | done]. }
  done.
Qed.


(** A name that no later definition reuses keeps its binding. *)
Lemma unpack_loop_keeps_var m fds k σ σ' :
  for_each fds (unpack_file m) σ = (Ok tt, σ') →
  (∀ fd, fd ∈ fds → f_name fd ≠ k) →
  (heap σ' !!! m_var m) !! k = (heap σ !!! m_var m) !! k.
Proof.
  revert σ. induction fds as [|fd fds IH]; intros σ; simpl.
  - by intros [= <-].
  - intros Hrun Hne. apply bind_ok in Hrun as ([] & σ1 & Hfd & Hrest).
    rewrite unpack_file_run in Hfd.
    destruct (payload fd); [| done]. injection Hfd as <-.
    rewrite (IH _ Hrest); [| intros fd' Hin; apply Hne; by right].
    simpl. rewrite list_lookup_total_alter.
    case_decide; [| done].
    rewrite lookup_insert_ne; [done |]. apply Hne. by left.
Qed.

(** Temporary files made earlier are not written again. *)
Lemma unpack_loop_keeps_file m fds j σ σ' :
  (∀ a b, tmp_name a = tmp_name b → a = b) →
  for_each fds (unpack_file m) σ = (Ok tt, σ') →
  j < ntmp σ →
  fs σ' !! tmp_name j = fs σ !! tmp_name j.
Proof.
  intros Hinj. revert σ. induction fds as [|fd fds IH]; intros σ; simpl.
  - by intros [= <-].
  - intros Hrun Hj. apply bind_ok in Hrun as ([] & σ1 & Hfd & Hrest).
    rewrite unpack_file_run in Hfd.
    destruct (payload fd); [| done]. injection Hfd as <-.
    rewrite (IH _ Hrest); [| simpl; lia].
    simpl. rewrite lookup_insert_ne; [done |].
    intros Heq. apply Hinj in Heq. lia.
Qed.

(** After a provisioning that succeeds, the i-th definition has the i-th
    temporary file; its name is bound to that path unless a later
    definition reuses the name, and the file holds its payload when
    temporary files have distinct names. *)
Lemma unpack_loop_ok m fds σ σ' :
  m_var m < length (heap σ) →
  for_each fds (unpack_file m) σ = (Ok tt, σ') →
  ∀ i fd, fds !! i = Some fd →
    ((∀ j fd', i < j → fds !! j = Some fd' → f_name fd' ≠ f_name fd) →
     (heap σ' !!! m_var m) !! f_name fd
     = Some (VStr (tmp_name (ntmp σ + i))))
    ∧ ((∀ a b, tmp_name a = tmp_name b → a = b) →
       ∃ data, payload fd = Ok data
               ∧ fs σ' !! tmp_name (ntmp σ + i) = Some data).
Proof.
  revert σ. induction fds as [|fd0 fds IH]; intros σ Hl; simpl.
  - by intros _ i fd.
  - intros Hrun. apply bind_ok in Hrun as ([] & σ1 & Hfd & Hrest).
    rewrite unpack_file_run in Hfd.
    destruct (payload fd0) as [data0|] eqn:Hp; [| done].
    injection Hfd as <-.
    intros [|i] fd Hi; simpl in Hi.
    + injection Hi as <-. rewrite Nat.add_0_r. split.
      * intros Hlast.
        rewrite (unpack_loop_keeps_var _ _ _ _ _ Hrest).
        -- simpl. rewrite list_lookup_total_alter_eq by done.
           by rewrite lookup_insert_eq.
        -- intros fd' [j Hj]%list_elem_of_lookup.
           apply (Hlast (S j)); [lia | done].
      * intros Hinj. exists data0. split; [done |].
        rewrite (unpack_loop_keeps_file _ _ _ _ _ Hinj Hrest); [| simpl; lia].
        simpl. by rewrite lookup_insert_eq.
    + assert (Hl1 : m_var m < length (heap (provisioned (m_var m) (f_name fd0) data0 σ)))
        by (simpl; by rewrite length_alter).
      destruct (IH _ Hl1 Hrest i fd Hi) as [Hvar Hfile].
      simpl in Hvar, Hfile.
      replace (ntmp σ + S i) with (S (ntmp σ + i)) by lia.
      split; [| done].
      intros Hlast. apply Hvar. intros j fd' Hij Hj.
      apply (Hlast (S j)); [lia | done].
Qed.

(** The command template is resolved in the state that provisioning
    leaves, and nothing between the two changes the state. *)
Lemma pre_spawn_ok m slf σ cmd ps logfile σ0 :
  pre_spawn m slf σ = (Ok (cmd, ps, logfile), σ0) →
  unpack_files m σ = (Ok tt, σ0)
  ∧ str_format (c_cmd (m_cfg m)) (heap σ0 !!! m_var m) = Ok cmd.
Proof.
  unfold pre_spawn. intros Hrun.
  apply bind_ok in Hrun as ([] & σ1 & Hfiles & Hrun).
  apply bind_ok in Hrun as (cmd' & σ2 & Hcmd & Hrun).
  apply bind_ok in Hrun as (ps' & σ3 & Hps & Hrun).
  apply bind_ok in Hrun as (logfile' & σ4 & Hlog & Hret).
  injection Hret as -> -> -> ->.
  rewrite format_run in Hcmd. injection Hcmd as Hcmd <-.
  apply logfile_of_same in Hlog as ->.
  assert (σ3 = σ1) as ->.
  { destruct (c_patterns (m_cfg m)).
    - by apply compile_patterns_same in Hps.
    - by injection Hps. }
  done.
Qed.

(** The compiled list follows the declared list, entry by entry. *)
Lemma compile_patterns_ok m pds σ ps σ' :
  compile_patterns m pds σ = (Ok ps, σ') →
  Forall2 (compiles_to (heap σ !!! m_var m)) pds ps.
Proof.
  revert ps σ'. induction pds as [|pd pds IH]; intros ps σ'; simpl.
  - intros [= <- _]. constructor.
  - intros Hrun. apply bind_ok in Hrun as (src & σ1 & Hsrc & Hrun).
    rewrite format_run in Hsrc. injection Hsrc as Hsrc <-.
    apply bind_ok in Hrun as (r & σ2 & Hr & Hrun).
    injection Hr as Hr <-.
    apply bind_ok in Hrun as (cps & σ3 & Hcps & Hret).
    injection Hret as <- _.
    constructor; [| by eapply IH].
    split; [done |]. split; [done |]. by exists src.
Qed.

Lemma pre_spawn_patterns m slf σ cmd ps logfile σ0 :
  pre_spawn m slf σ = (Ok (cmd, ps, logfile), σ0) →
  Forall2 (compiles_to (heap σ0 !!! m_var m))
          (default [] (c_patterns (m_cfg m))) ps.
Proof.
  intros Hpre. destruct (pre_spawn_ok _ _ _ _ _ _ _ Hpre) as [Hfiles _].
  unfold pre_spawn in Hpre. rewrite bind_run, Hfiles in Hpre.
  apply bind_ok in Hpre as (cmd' & σ2 & Hcmd & Hpre).
  rewrite format_run in Hcmd. injection Hcmd as _ <-.
  apply bind_ok in Hpre as (ps' & σ3 & Hps & Hpre).
  apply bind_ok in Hpre as (logfile' & σ4 & _ & Hret).
  injection Hret as _ -> _ _.
  destruct (c_patterns (m_cfg m)) as [pds|]; simpl.
  - by eapply compile_patterns_ok.
  - injection Hps as <- _. constructor.
Qed.

#[export] Instance same_heap_preorder :
  PreOrder (λ σ σ' : state, heap σ' = heap σ).
Proof. split; [done | intros ??? H1 H2; by rewrite H2]. Qed.

Lemma exec_cmd_start_heap m cmd logfile :
  preserves (λ σ σ', heap σ' = heap σ) (exec_cmd_start m cmd logfile).
Proof.
  unfold exec_cmd_start.
  apply preserves_bind; [apply _ | by prim |]. intros _.
  apply preserves_bind; [apply _ | apply preserves_get, _ |]. intros σ0.
  apply preserves_bind; [apply _ | apply preserves_lift, _ |]. intros lines.
  apply preserves_bind; [apply _ | | intros fp; apply preserves_ret, _].
  destruct logfile as [p|]; [| apply preserves_ret, _].
  destruct (open_w p).
  - apply preserves_bind; [apply _ | by prim |].
    intros _. apply preserves_ret, _.
  - apply preserves_bind; [apply _ | by prim |].
    intros _. apply preserves_ret, _.
Qed.

(** The lines read are those of the process started on the resolved,
    whitespace-split command. *)
Lemma prepare_ok m slf σ ps fp lines σ1 :
  prepare m slf σ = (Ok (ps, fp, lines), σ1) →
  ∃ cmd logfile σ0 evs,
    pre_spawn m slf σ = (Ok (cmd, ps, logfile), σ0)
    ∧ popen (py_split cmd) (fs σ0) = Ok lines
    ∧ heap σ1 = heap σ0
    ∧ trace σ1 = trace σ0 ++ EvPopen (py_split cmd) :: evs.
Proof.
  unfold prepare. intros Hrun.
  apply bind_ok in Hrun as ([[cmd ps'] logfile] & σ0 & Hpre & Hrun).
  apply bind_ok in Hrun as ([lines' fp'] & σ2 & Hstart & Hret).
  injection Hret as -> -> -> ->.
  pose proof (exec_cmd_start_heap _ _ _ _ _ _ Hstart) as Hheap.
  exists cmd, logfile, σ0. unfold exec_cmd_start in Hstart.
  apply bind_ok in Hstart as ([] & σa & Hemit & Hstart).
  injection Hemit as <-.
  apply bind_ok in Hstart as (σb & σc & Hget & Hstart).
  injection Hget as <- <-.
  apply bind_ok in Hstart as (lines2 & σd & Hpopen & Hstart).
  injection Hpopen as Hpopen <-. simpl in Hpopen.
  apply bind_ok in Hstart as (fp2 & σe & Hopen & Hret).
  injection Hret as -> -> ->.
  assert (Hev : emits silent
            (State (heap σ0) (fs σ0) (ntmp σ0) (pool σ0)
                   (trace σ0 ++ [EvPopen (py_split cmd)])) σ1).
  { revert Hopen. destruct logfile as [p|]; [| by intros [= _ <-]].
    destruct (open_w p); intros Hopen.
    - apply bind_ok in Hopen as ([] & σf & Hopen & Hret).
      injection Hret as _ <-. injection Hopen as <-.
      by apply emits_same_trace.
    - apply bind_ok in Hopen as ([] & σf & Hopen & Hret).
      injection Hret as _ <-. injection Hopen as <-.
      eexists [_]. by split. }
  destruct Hev as (evs & Ht & _). simpl in Ht.
  exists evs. split; [done |]. split; [done |]. split; [done |].
  by rewrite Ht, <- app_assoc.
Qed.

(** ** Scopes *)

Lemma overlay_inherited vs d k :
  k ∉ (default [] vs).*1 → overlay vs d !! k = d !! k.
Proof.
  unfold overlay. generalize (default [] vs). clear vs. intros vs.
  revert d. induction vs as [|[k' v'] vs IH]; intros d Hk; simpl; [done |].
  rewrite fmap_cons, not_elem_of_cons in Hk. destruct Hk as [Hne Hk].
  rewrite IH by done. simpl in *. by rewrite lookup_insert_ne.
Qed.

Lemma overlay_declared vs d k v :
  NoDup (default [] vs).*1 → (k, v) ∈ default [] vs →
  overlay vs d !! k = Some v.
Proof.
  unfold overlay. generalize (default [] vs). clear vs. intros vs.
  revert d. induction vs as [|[k' v'] vs IH]; intros d Hnd Hin; simpl.
  - by apply elem_of_nil in Hin.
  - rewrite fmap_cons in Hnd. apply NoDup_cons in Hnd as [Hk' Hnd].
    apply elem_of_cons in Hin as [[= <- <-]|Hin].
    + change (foldl _ (<[k := v]> d) vs) with (overlay (Some vs) (<[k := v]> d)).
      rewrite overlay_inherited by done. by rewrite lookup_insert_eq.
    + by apply IH.
Qed.

(** ** Positional binding *)

Lemma match_group_ok mt j v :
  match_group mt (S j) = Ok v → (group_value <$> mt) !! j = Some v.
Proof.
  unfold match_group. simpl. rewrite Nat.sub_0_r, list_lookup_fmap.
  destruct (mt !! j) as [[s|]|]; simpl; by intros [= <-].
Qed.

Lemma bound_positional d mt groups j d' :
  bound d mt groups (S j) = Ok d' →
  length groups ≤ length mt - j
  ∧ ∃ names,
      length names = length groups
      ∧ d' = bind_positional d names (drop j (group_value <$> mt))
      ∧ ∀ i g, groups !! i = Some g →
          ∃ n, names !! i = Some n
               ∧ str_format g (bind_positional d (take i names)
                                 (drop j (group_value <$> mt))) = Ok n.
Proof.
  revert d j. induction groups as [|group groups IH]; intros d j; simpl.
  - intros [= <-]. split; [lia |]. exists []. by repeat split.
  - destruct (match_group mt (S j)) as [v|] eqn:Hv; [| done].
    destruct (str_format group d) as [name|] eqn:Hname; [| done].
    intros Hrest. apply IH in Hrest as (Hlen & names & Hnames & -> & Hres).
    apply match_group_ok in Hv.
    assert (Hdrop : drop j (group_value <$> mt)
                    = v :: drop (S j) (group_value <$> mt)).
    { by apply drop_S. }
    split.
    { apply lookup_lt_Some in Hv. rewrite length_fmap in Hv. lia. }
    exists (name :: names).
    split; [simpl; lia |]. rewrite Hdrop. split; [done |].
    intros [|i] g Hg; simpl in Hg.
    + injection Hg as <-. exists name. by split.
    + apply Hres in Hg as (n & Hn & Hfmt). exists n. by split.
Qed.

Lemma bind_positional_other d names vals k :
  k ∉ names → bind_positional d names vals !! k = d !! k.
Proof.
  unfold bind_positional. revert d vals.
  induction names as [|n names IH]; intros d [|v vals] Hk; simpl; try done.
  apply not_elem_of_cons in Hk as [Hne Hk].
  rewrite IH by done. simpl. by rewrite lookup_insert_ne.
Qed.

Lemma bind_positional_lookup d names vals i n v :
  NoDup names → names !! i = Some n → vals !! i = Some v →
  bind_positional d names vals !! n = Some v.
Proof.
  revert d vals i. induction names as [|n0 names IH];
    intros d [|v0 vals] [|i] Hnd Hn Hv; simpl in *; try done.
  - injection Hn as ->. injection Hv as ->.
    apply NoDup_cons in Hnd as [Hnot _].
    change (bind_positional d (n :: names) (v :: vals))
      with (bind_positional (<[n := v]> d) names vals).
    rewrite bind_positional_other by done. by rewrite lookup_insert_eq.
  - apply NoDup_cons in Hnd as [_ Hnd].
    exact (IH (<[n0 := v0]> d) vals i Hnd Hn Hv).
Qed.

(** ** The run of a node *)

Lemma run_worker_passed m slf σ :
  should_not_run m σ = (Ok false, σ) →
  run_worker m slf σ = run_body m slf σ.
Proof. intros Hpass. unfold run_worker. by rewrite bind_run, Hpass. Qed.

Lemma run_worker_skipped m slf σ :
  should_not_run m σ = (Ok true, σ) →
  run_worker m slf σ = (Ok tt, σ).
Proof. intros Hpass. unfold run_worker. by rewrite bind_run, Hpass. Qed.

(** The three phases of a run that is not skipped and ends normally. *)
Lemma run_body_ok m slf σ σ' :
  run_body m slf σ = (Ok tt, σ') →
  ∃ ps fp lines σ1 σ2,
    prepare m slf σ = (Ok (ps, fp, lines), σ1)
    ∧ consume m slf ps fp lines σ1 = (Ok tt, σ2)
    ∧ run_submodules m Always slf σ2 = (Ok tt, σ').
Proof.
  rewrite run_body_eq. intros Hrun.
  apply bind_ok in Hrun as ([[ps fp] lines] & σ1 & Hprep & Hrun).
  apply bind_ok in Hrun as ([] & σ2 & Hloop & Hrun).
  by exists ps, fp, lines, σ1, σ2.
Qed.

(** The events of a preparation that succeeds: nothing but the start of
    the process and log records. *)
Lemma prepare_trace m slf σ ps fp lines σ1 :
  prepare m slf σ = (Ok (ps, fp, lines), σ1) →
  ∃ cmd logfile σ0 a,
    pre_spawn m slf σ = (Ok (cmd, ps, logfile), σ0)
    ∧ popen (py_split cmd) (fs σ0) = Ok lines
    ∧ heap σ1 = heap σ0
    ∧ trace σ1 = trace σ ++ a
    ∧ silent a
    ∧ EvPopen (py_split cmd) ∈ a.
Proof.
  intros Hprep.
  destruct (prepare_ok _ _ _ _ _ _ _ Hprep)
    as (cmd & logfile & σ0 & evs & Hpre & Hpopen & Hheap & Ht).
  destruct (prepare_emits _ _ _ _ _ Hprep) as (a & Ha & Hsa).
  destruct (pre_spawn_emits _ _ _ _ _ Hpre) as (a0 & Ha0 & _).
  exists cmd, logfile, σ0, a. repeat split; try done; try apply Hsa.
  rewrite Ha0, <- app_assoc in Ht. rewrite Ha in Ht.
  apply app_inv_head in Ht as ->.
  apply elem_of_app. right. by left.
Qed.

(** C1: a node that is not skipped and runs to completion triggers the
    "always" group exactly once, after every line of the output of its
    command has been read, however many lines there are and however many
    of them match. *)
Theorem always_once_after_output m slf σ σ' :
  should_not_run m σ = (Ok false, σ) →
  run_worker m slf σ = (Ok tt, σ') →
  ∃ cmd σ0 lines pre post,
    unpack_files m σ = (Ok tt, σ0)
    ∧ str_format (c_cmd (m_cfg m)) (heap σ0 !!! m_var m) = Ok cmd
    ∧ popen (py_split cmd) (fs σ0) = Ok lines
    ∧ trace σ' = trace σ ++ pre ++ EvTrigger (m_var m) Always :: post
    ∧ EvPopen (py_split cmd) ∈ pre
    ∧ lines_of pre = lines
    ∧ count_trigger Always pre = 0
    ∧ lines_of post = []
    ∧ count_trigger Always post = 0
    ∧ count_trigger Always (pre ++ EvTrigger (m_var m) Always :: post) = 1.
Proof.
  intros Hpass Hrun. rewrite (run_worker_passed _ _ _ Hpass) in Hrun.
  apply run_body_ok in Hrun as (ps & fp & lines & σ1 & σ2 & Hprep & Hloop & Hrun).
  apply prepare_trace in Hprep
    as (cmd & logfile & σ0 & a & Hpre0 & Hpopen & _ & Ha & (Hta & Hla & _) & Hin).
  apply pre_spawn_ok in Hpre0 as [Hfiles Hcmd].
  apply consume_ok in Hloop as (b & Hb & Hlb & Hab & _).
  apply run_submodules_trace in Hrun as (subs & Hc).
  exists cmd, σ0, lines, (a ++ b), (map EvStart subs).
  assert (Hpre : count_trigger Always (a ++ b) = 0)
    by (rewrite count_trigger_app, Hta, Hab; done).
  repeat split.
  - done.
  - done.
  - done.
  - by rewrite Hc, Hb, Ha, <- !app_assoc.
  - apply elem_of_app. by left.
  - by rewrite lines_of_app, Hla, Hlb.
  - done.
  - apply lines_of_starts.
  - apply count_trigger_starts.
  - rewrite count_trigger_app, Hpre, count_trigger_cascade. done.
Qed.

(** ** Cascades on a match *)

Lemma log_match_heap m log :
  preserves (λ σ σ', heap σ' = heap σ) (log_match m log).
Proof.
  destruct log as [log|]; simpl; [| apply preserves_ret, _].
  destruct (String.eqb log ""); [apply preserves_ret, _ |].
  apply preserves_bind; [apply _ | |].
  - intros σ r σ'. rewrite format_run. by intros [= _ <-].
  - intros msg σ r σ'. by intros [= _ <-].
Qed.

(** One match occurrence: the groups are bound in the scope of the node,
    and every child of the on-match group is then started once, on a new
    dict that is a copy of that mutated scope under the child's own
    declared variables. *)
Lemma on_pattern_match m slf line p mt σ σ' :
  m_var m < length (heap σ) →
  re_match (cp_pattern p) line = Some mt →
  on_pattern m slf line p σ = (Ok tt, σ') →
  let posts := default [] (c_on_match (m_cfg m)) in
  ∃ d subs evs,
    bound (heap σ !!! m_var m) mt (cp_groups p) 1 = Ok d
    ∧ heap σ' !!! m_var m = d
    ∧ spawned d (length (heap σ)) posts subs
    ∧ (∀ i post, posts !! i = Some post →
         heap σ' !! (length (heap σ) + i) = Some (overlay (c_vars post) d))
    ∧ trace σ' = trace σ ++ evs
    ∧ count_trigger OnMatch evs = 1
    ∧ started evs = subs.
Proof.
  intros Hl Hmt. rewrite on_pattern_eq, Hmt. intros Hrun posts.
  apply bind_ok in Hrun as ([] & σ1 & Hbind & Hrun).
  apply bind_ok in Hrun as ([] & σ2 & Hlog & Hrun).
  destruct (bind_groups_run m mt (cp_groups p) 1 σ Hl) as (d & Hbind' & Hd).
  rewrite Hbind in Hbind'.
  destruct (bound _ _ _ _) as [d'|] eqn:Hbound; [| done].
  specialize (Hd d' eq_refl) as <-. injection Hbind' as ->.
  pose proof (log_match_heap _ _ _ _ _ Hlog) as Hh2.
  apply log_match_emits in Hlog as (b & Hb & Hsb). simpl in Hh2, Hb.
  assert (Hl2 : m_var m < length (heap σ2))
    by (rewrite Hh2, length_insert; done).
  assert (Hd2 : heap σ2 !!! m_var m = d)
    by (rewrite Hh2; by apply list_lookup_total_insert_eq).
  apply run_submodules_ok in Hrun as (subs & Hsp & ->); [| done].
  simpl in Hsp. rewrite Hd2, Hh2, length_insert in Hsp.
  exists d, subs, (b ++ EvTrigger (m_var m) OnMatch :: map EvStart subs).
  simpl. rewrite Hd2, Hh2. repeat split.
  - rewrite lookup_total_app_l by (by rewrite length_insert).
    by apply list_lookup_total_insert_eq.
  - apply Hsp.
  - apply Hsp.
  - intros i post Hpost.
    rewrite lookup_app_r by (rewrite length_insert; lia).
    rewrite length_insert.
    replace (length (heap σ) + i - length (heap σ)) with i by lia.
    rewrite list_lookup_fmap. fold posts. by rewrite Hpost.
  - by rewrite Hb, <- app_assoc.
  - rewrite count_trigger_app, count_trigger_cascade.
    by destruct Hsb as [-> _].
  - rewrite started_app. destruct Hsb as (_ & _ & ->). simpl.
    apply started_starts.
Qed.

(** C2: the on-match group is triggered once per match occurrence.  In
    a run that ends normally the compiled patterns are the declared ones
    in their order, and the number of triggers is the number of pairs of
    an output line and a pattern matching it (taken line by line, and
    for each line pattern by pattern); and at each occurrence
    every child of the group is started once on its own new dict, a copy
    of the scope as that match has just mutated it, under the child's
    declared variables. *)
Theorem on_match_per_occurrence m slf :
  (∀ σ σ' ps fp lines σ1,
     should_not_run m σ = (Ok false, σ) →
     run_worker m slf σ = (Ok tt, σ') →
     prepare m slf σ = (Ok (ps, fp, lines), σ1) →
     Forall2 (compiles_to (heap σ1 !!! m_var m))
             (default [] (c_patterns (m_cfg m))) ps
     ∧ ∃ evs, trace σ' = trace σ ++ evs
              ∧ lines_of evs = lines
              ∧ count_trigger OnMatch evs = length (occurrences ps lines))
  ∧ (∀ line p mt σ σ',
       m_var m < length (heap σ) →
       re_match (cp_pattern p) line = Some mt →
       on_pattern m slf line p σ = (Ok tt, σ') →
       let posts := default [] (c_on_match (m_cfg m)) in
       ∃ d subs evs,
         bound (heap σ !!! m_var m) mt (cp_groups p) 1 = Ok d
         ∧ heap σ' !!! m_var m = d
         ∧ spawned d (length (heap σ)) posts subs
         ∧ (∀ i post, posts !! i = Some post →
              heap σ' !! (length (heap σ) + i)
              = Some (overlay (c_vars post) d))
         ∧ trace σ' = trace σ ++ evs
         ∧ count_trigger OnMatch evs = 1
         ∧ started evs = subs).
Proof.
  split; [| apply on_pattern_match].
  intros σ σ' ps fp lines σ1 Hpass Hrun Hprep.
  rewrite (run_worker_passed _ _ _ Hpass) in Hrun.
  apply run_body_ok in Hrun
    as (ps' & fp' & lines' & σ1' & σ2 & Hprep' & Hloop & Hrun).
  rewrite Hprep in Hprep'. injection Hprep' as <- <- <- <-.
  split.
  { apply prepare_ok in Hprep
      as (cmd & logfile & σ0 & evs & Hpre & _ & Hheap & _).
    rewrite Hheap. by eapply pre_spawn_patterns. }
  apply prepare_emits in Hprep as (a & Ha & Hta & Hla & _).
  apply consume_ok in Hloop as (b & Hb & Hlb & _ & Hob).
  apply run_submodules_trace in Hrun as (subs & Hc).
  exists (a ++ b ++ EvTrigger (m_var m) Always :: map EvStart subs).
  split; [by rewrite Hc, Hb, Ha, <- !app_assoc |]. split.
  - rewrite !lines_of_app, Hla, Hlb. simpl.
    by rewrite lines_of_starts, app_nil_r.
  - rewrite !count_trigger_app, Hta, Hob, count_trigger_cascade. simpl. lia.
Qed.

(** ** Skipping *)

Lemma should_not_run_disabled m σ :
  enabled (m_cfg m) = false → should_not_run m σ = (Ok true, σ).
Proof.
  unfold enabled, should_not_run.
  destruct (c_enabled (m_cfg m)) as [v|]; [| done]. by intros ->.
Qed.

Lemma should_not_run_condition m σ t cond v :
  enabled (m_cfg m) = true →
  c_condition (m_cfg m) = Some t →
  str_format t (heap σ !!! m_var m) = Ok cond →
  py_eval cond (heap σ !!! m_var m) = Ok v →
  should_not_run m σ = (Ok (negb (truthy v)), σ).
Proof.
  unfold enabled, should_not_run. intros Hen -> Hfmt Hev.
  assert (Hdis : match c_enabled (m_cfg m) with
                 | Some v => negb (truthy v)
                 | None => false
                 end = false).
  { destruct (c_enabled (m_cfg m)); [by rewrite Hen | done]. }
  rewrite Hdis, bind_run, format_run, Hfmt, bind_run, read_var_run.
  rewrite bind_run. unfold lift. by rewrite Hev.
Qed.

Lemma should_not_run_unconditional m σ :
  enabled (m_cfg m) = true →
  c_condition (m_cfg m) = None →
  should_not_run m σ = (Ok false, σ).
Proof.
  unfold enabled, should_not_run. intros Hen ->.
  destruct (c_enabled (m_cfg m)); [by rewrite Hen | done].
Qed.

#[export] Instance emits_any_preorder : PreOrder (emits (λ _, True)).
Proof. by apply emits_preorder. Qed.

Lemma bind_any {A B} (m : M A) (f : A → M B) σ r σ' :
  (m ≫= f) σ = (r, σ') →
  ∃ r1 σ1, m σ = (r1, σ1)
    ∧ ((∃ e, r1 = Raise e ∧ r = Raise e ∧ σ' = σ1)
       ∨ (∃ a, r1 = Ok a ∧ f a σ1 = (r, σ'))).
Proof.
  rewrite bind_run. destruct (m σ) as [[a|e] σ1]; intros Hf.
  - exists (Ok a), σ1. split; [done |]. right. by exists a.
  - injection Hf as <- <-. exists (Raise e), σ1. split; [done |].
    left. by exists e.
Qed.

Lemma consume_grows m slf ps fp lines :
  preserves (emits (λ _, True)) (consume m slf ps fp lines).
Proof.
  intros σ r σ' Hrun. apply consume_no_always in Hrun.
  by eapply emits_weaken; [| apply Hrun].
Qed.

Lemma run_submodules_grows m g slf :
  preserves (emits (λ _, True)) (run_submodules m g slf).
Proof. by apply run_submodules_emits. Qed.

(** [exec_cmd_start] first of all records the start of the process. *)
Lemma exec_cmd_start_first m cmd logfile σ r σ' :
  exec_cmd_start m cmd logfile σ = (r, σ') →
  ∃ evs, trace σ' = trace σ ++ EvPopen (py_split cmd) :: evs.
Proof.
  unfold exec_cmd_start. rewrite bind_run. unfold emit at 1.
  set (σa := State _ _ _ _ _). intros Hrun.
  enough (emits (λ _, True) σa σ') as (evs & Ht & _).
  { exists evs. rewrite Ht. simpl. by rewrite <- app_assoc. }
  revert Hrun. generalize σa. clear σa. intros σa Hrun.
  eapply (preserves_bind (emits (λ _, True))); [| | exact Hrun].
  { apply preserves_get, _. }
  intros σ1. apply preserves_bind; [apply _ | apply preserves_lift, _ |].
  intros lines.
  apply preserves_bind; [apply _ | | intros fp; apply preserves_ret, _].
  destruct logfile as [p|]; [| apply preserves_ret, _].
  destruct (open_w p).
  - apply preserves_bind; [apply _ | by apply truncate_emits |].
    intros _. apply preserves_ret, _.
  - apply preserves_bind; [apply _ | by apply emit_emits |].
    intros _. apply preserves_ret, _.
Qed.

(** Once the process is started, its start stays in the trace. *)
Lemma run_body_spawns m slf σ cmd ps logfile σ0 :
  pre_spawn m slf σ = (Ok (cmd, ps, logfile), σ0) →
  ∃ r σ' evs,
    run_body m slf σ = (r, σ')
    ∧ trace σ' = trace σ0 ++ EvPopen (py_split cmd) :: evs.
Proof.
  intros Hpre.
  destruct (run_body m slf σ) as [r σ'] eqn:Hrun. exists r, σ'.
  rewrite run_body_eq in Hrun.
  apply bind_any in Hrun as (r1 & σ1 & Hprep & Hrun).
  unfold prepare in Hprep. rewrite bind_run, Hpre in Hprep.
  apply bind_any in Hprep as (r0 & σa & Hstart & Hprep).
  apply exec_cmd_start_first in Hstart as (evs0 & Ht0).
  assert (σ1 = σa) as ->.
  { destruct Hprep as [(e & _ & _ & Heq)|([lines fp] & _ & Hret)]; [done |].
    by injection Hret. }
  destruct Hrun as [(e & _ & _ & Heq)|([[ps' fp] lines] & _ & Hrun)].
  { subst σ'. by exists evs0. }
  enough (emits (λ _, True) σa σ') as (evs & Ht & _).
  { exists (evs0 ++ evs). rewrite Ht, Ht0. by rewrite <- app_assoc. }
  eapply (preserves_bind (emits (λ _, True))); [| | exact Hrun].
  - apply consume_grows.
  - intros u. apply run_submodules_grows.
Qed.

(** C3: a node whose enabled flag is present and false, or whose
    resolved condition evaluates to a false value, is skipped: its run
    ends at once and leaves the whole state as it was, so that no file
    is provisioned, no process started and no group triggered.  A node
    whose flag is absent or true and whose condition is absent or
    evaluates to a true value goes on to provisioning, and once its
    templates are resolved its command is started. *)
Theorem skipped_or_run m slf σ :
  let c := m_cfg m in
  let d := heap σ !!! m_var m in
  (enabled c = false → run_worker m slf σ = (Ok tt, σ))
  ∧ (∀ t cond v,
       enabled c = true → c_condition c = Some t →
       str_format t d = Ok cond → py_eval cond d = Ok v →
       truthy v = false →
       run_worker m slf σ = (Ok tt, σ))
  ∧ (enabled c = true →
     (c_condition c = None
      ∨ ∃ t cond v, c_condition c = Some t ∧ str_format t d = Ok cond
                    ∧ py_eval cond d = Ok v ∧ truthy v = true) →
     run_worker m slf σ = run_body m slf σ
     ∧ ∀ cmd ps logfile σ0,
         pre_spawn m slf σ = (Ok (cmd, ps, logfile), σ0) →
         ∃ r σ' evs,
           run_worker m slf σ = (r, σ')
           ∧ trace σ' = trace σ0 ++ EvPopen (py_split cmd) :: evs).
Proof.
  intros c d. split; [| split].
  - intros Hen. by apply run_worker_skipped, should_not_run_disabled.
  - intros t cond v Hen Ht Hfmt Hev Hv. apply run_worker_skipped.
    rewrite (should_not_run_condition _ _ _ _ _ Hen Ht Hfmt Hev).
    by rewrite Hv.
  - intros Hen Hcond.
    assert (Hpass : should_not_run m σ = (Ok false, σ)).
    { destruct Hcond as [Hnone|(t & cond & v & Ht & Hfmt & Hev & Hv)].
      - by apply should_not_run_unconditional.
      - rewrite (should_not_run_condition _ _ _ _ _ Hen Ht Hfmt Hev).
        by rewrite Hv. }
    rewrite (run_worker_passed _ _ _ Hpass). split; [done |].
    intros cmd ps logfile σ0. apply run_body_spawns.
Qed.

(** ** Scope isolation *)

Lemma run_body_framed n m slf : preserves (framed n (m_var m)) (run_body m slf).
Proof.
  unfold run_body.
  apply preserves_bind; [apply _ | apply unpack_files_framed |]. intros _.
  apply preserves_bind; [apply _ | apply format_framed |]. intros cmd.
  apply preserves_bind; [apply _ | |].
  { destruct (c_patterns (m_cfg m));
      [apply same_framed, compile_patterns_same | apply preserves_ret, _]. }
  intros ps. apply preserves_bind;
    [apply _ | apply same_framed, logfile_of_same |].
  intros logfile.
  apply preserves_bind; [apply _ | apply exec_cmd_start_framed |].
  intros [lines fp].
  apply preserves_bind; [apply _ | apply consume_framed |]. intros _.
  apply run_submodules_framed.
Qed.

Lemma run_worker_framed n m slf :
  preserves (framed n (m_var m)) (run_worker m slf).
Proof.
  unfold run_worker.
  apply preserves_bind; [apply _ | apply same_framed, should_not_run_same |].
  intros [|]; [apply preserves_ret, _ | apply run_body_framed].
Qed.

(** C4: the scope of a node instance is a new dict, the copy of the
    parent's scope at that moment with the node's declared variables
    stored over it (a declared name wins, any other name is inherited).
    A run changes no dict that existed before it other than the node's
    own, so a capture is never seen by the parent or by a sibling branch.
    The captures are seen by the node's later template resolutions and
    are part of the copy handed to each child it starts afterwards. *)
Theorem scope_isolation m slf :
  (∀ c lp σ r σ',
     Module_init c (Some lp) σ = (r, σ') →
     let child := overlay (c_vars c) (heap σ !!! lp) in
     heap σ' = heap σ ++ [child]
     ∧ (∀ sub, r = Ok sub → m_cfg sub = c ∧ m_var sub = length (heap σ))
     ∧ (∀ k, k ∉ (default [] (c_vars c)).*1 →
          child !! k = (heap σ !!! lp) !! k)
     ∧ (∀ k v, NoDup (default [] (c_vars c)).*1 →
          (k, v) ∈ default [] (c_vars c) → child !! k = Some v))
  ∧ (∀ σ r σ',
       m_var m < length (heap σ) →
       run_worker m slf σ = (r, σ') →
       frame (length (heap σ)) (m_var m) σ σ')
  ∧ (∀ mt groups idx σ σ1,
       m_var m < length (heap σ) →
       bind_groups m mt groups idx σ = (Ok tt, σ1) →
       ∃ d, bound (heap σ !!! m_var m) mt groups idx = Ok d
            ∧ heap σ1 = <[m_var m := d]> (heap σ)
            ∧ (∀ t, format (m_var m) t σ1 = (str_format t d, σ1))
            ∧ (∀ g σ2,
                 run_submodules m g slf σ1 = (Ok tt, σ2) →
                 ∀ i post,
                   default [] (submodules (m_cfg m) g) !! i = Some post →
                   heap σ2 !! (length (heap σ) + i)
                   = Some (overlay (c_vars post) d))).
Proof.
  split; [| split].
  - intros c lp σ r σ'. rewrite Module_init_run. intros [= Hr <-] child.
    split; [done |]. split; [| split].
    + intros sub ->. by destruct (str_format _ _); simplify_eq.
    + apply overlay_inherited.
    + apply overlay_declared.
  - intros σ r σ' Hl Hrun. by apply (run_worker_framed _ _ _ _ _ _ Hrun).
  - intros mt groups idx σ σ1 Hl Hbind.
    destruct (bind_groups_run m mt groups idx σ Hl) as (d & Hbind' & Hd).
    rewrite Hbind in Hbind'.
    destruct (bound _ _ _ _) as [d'|] eqn:Hbound; [| done].
    specialize (Hd d' eq_refl) as <-. injection Hbind' as ->.
    exists d. split; [done |]. split; [done |].
    assert (Hcell : <[m_var m := d]> (heap σ) !!! m_var m = d)
      by (by apply list_lookup_total_insert_eq).
    split.
    + intros t. rewrite format_run. simpl. by rewrite Hcell.
    + intros g σ2 Hsub i post Hpost.
      apply run_submodules_ok in Hsub as (subs & _ & ->);
        [| simpl; by rewrite length_insert].
      simpl. rewrite Hcell.
      rewrite lookup_app_r by (rewrite length_insert; lia).
      rewrite length_insert.
      replace (length (heap σ) + i - length (heap σ)) with i by lia.
      by rewrite list_lookup_fmap, Hpost.
Qed.

(** ** Capture binding on a match *)

Lemma on_pattern_miss m slf line p σ :
  re_match (cp_pattern p) line = None →
  on_pattern m slf line p σ = (Ok tt, σ).
Proof. intros Hmt. by rewrite on_pattern_eq, Hmt. Qed.

(** A match binds the text of group [i] under the i-th resolved name,
    each name being resolved in the scope that the bindings before it
    have left. *)
Lemma capture_positional m slf line p mt σ σ' :
  m_var m < length (heap σ) →
  re_match (cp_pattern p) line = Some mt →
  on_pattern m slf line p σ = (Ok tt, σ') →
  let d := heap σ !!! m_var m in
  let vals := group_value <$> mt in
  length (cp_groups p) ≤ length mt
  ∧ ∃ names,
      length names = length (cp_groups p)
      ∧ (∀ i g, cp_groups p !! i = Some g →
           ∃ n, names !! i = Some n
                ∧ str_format g (bind_positional d (take i names) vals) = Ok n)
      ∧ heap σ' !!! m_var m = bind_positional d names vals
      ∧ (NoDup names → ∀ i n, names !! i = Some n →
           (heap σ' !!! m_var m) !! n = vals !! i).
Proof.
  intros Hl Hmt Hrun d vals.
  destruct (on_pattern_match _ _ _ _ _ _ _ Hl Hmt Hrun)
    as (d' & subs & evs & Hbound & Hd' & _).
  apply bound_positional in Hbound as (Hlen & names & Hnames & -> & Hres).
  rewrite drop_0 in *. rewrite Nat.sub_0_r in Hlen.
  split; [done |]. exists names. split; [done |]. split; [done |].
  split; [done |].
  intros Hnd i n Hn. rewrite Hd'.
  assert (is_Some (vals !! i)) as [v Hv].
  { apply lookup_lt_is_Some. unfold vals. rewrite length_fmap.
    apply lookup_lt_Some in Hn. lia. }
  rewrite Hv. by eapply bind_positional_lookup.
Qed.

(** ** When the loop is cut short *)

(** C6, as the code has it: the "always" group is triggered when, and
    only when, the loop over the output ends normally.  An exception
    raised while a line is processed (an unresolved variable in a capture
    name or a log message, a missing group) leaves [run_worker] at once:
    the run ends with that exception and "always" is not triggered. *)
Theorem always_only_after_normal_loop m slf σ ps fp lines σ1 r σ' :
  should_not_run m σ = (Ok false, σ) →
  prepare m slf σ = (Ok (ps, fp, lines), σ1) →
  run_worker m slf σ = (r, σ') →
  ∃ evs,
    trace σ' = trace σ ++ evs
    ∧ match consume m slf ps fp lines σ1 with
      | (Ok _, _) => count_trigger Always evs = 1
      | (Raise e, σ2) =>
          r = Raise e ∧ σ' = σ2 ∧ count_trigger Always evs = 0
      end.
Proof.
  intros Hpass Hprep Hrun. rewrite (run_worker_passed _ _ _ Hpass) in Hrun.
  rewrite run_body_eq, bind_run, Hprep, bind_run in Hrun.
  apply prepare_emits in Hprep as (a & Ha & Hta & _).
  destruct (consume m slf ps fp lines σ1) as [[[]|e] σ2] eqn:Hloop.
  - apply consume_no_always in Hloop as (b & Hb & Hab).
    apply run_submodules_trace in Hrun as (subs & Hc).
    exists (a ++ b ++ EvTrigger (m_var m) Always :: map EvStart subs).
    split; [by rewrite Hc, Hb, Ha, <- !app_assoc |].
    rewrite !count_trigger_app, Hta, Hab, count_trigger_cascade. done.
  - injection Hrun as <- <-.
    apply consume_no_always in Hloop as (b & Hb & Hab).
    exists (a ++ b). split; [by rewrite Hb, Ha, <- !app_assoc |].
    repeat split. rewrite count_trigger_app, Hta, Hab. done.
Qed.

(** ** What the files hold *)

Lemma payload_unhandled fd :
  f_type fd ≠ "text" → f_type fd ≠ "base64" → f_type fd ≠ "wget" →
  payload fd = Ok [].
Proof.
  intros H1 H2 H3. unfold payload.
  apply String.eqb_neq in H1, H2, H3. by rewrite H1, H2, H3.
Qed.

Lemma provisioned_var m name data σ :
  m_var m < length (heap σ) →
  (heap (provisioned (m_var m) name data σ) !!! m_var m) !! name
  = Some (VStr (tmp_name (ntmp σ))).
Proof.
  intros Hl. simpl. rewrite list_lookup_total_alter_eq by done.
  by rewrite lookup_insert_eq.
Qed.

Lemma provisioned_file l name data σ :
  fs (provisioned l name data σ) !! tmp_name (ntmp σ) = Some data.
Proof. simpl. by rewrite lookup_insert_eq. Qed.

(** C8, as the code has it: the content of a file definition is written
    as it stands, without template substitution: the text itself for
    the type "text", and for the type "base64" the decoding of the
    content as declared.  The path of the file is bound under the
    declared name, and the command template is resolved only afterwards,
    in the scope that provisioning has left. *)
Theorem files_written_verbatim m slf σ :
  m_var m < length (heap σ) →
  (∀ fd r σ',
     unpack_file m fd σ = (r, σ') →
     let path := tmp_name (ntmp σ) in
     (heap σ' !!! m_var m) !! f_name fd = Some (VStr path)
     ∧ (f_type fd = "text" →
          r = Ok tt ∧ fs σ' !! path = Some (encode (f_content fd)))
     ∧ (f_type fd = "base64" →
          match b64decode (f_content fd) with
          | Ok data => r = Ok tt ∧ fs σ' !! path = Some data
          | Raise e => r = Raise e
          end))
  ∧ (∀ fds σ1 i fd,
       c_files (m_cfg m) = Some fds →
       unpack_files m σ = (Ok tt, σ1) →
       fds !! i = Some fd →
       ((∀ j fd', i < j → fds !! j = Some fd' → f_name fd' ≠ f_name fd) →
        (heap σ1 !!! m_var m) !! f_name fd
        = Some (VStr (tmp_name (ntmp σ + i))))
       ∧ ((∀ a b, tmp_name a = tmp_name b → a = b) →
          ∃ data, payload fd = Ok data
                  ∧ fs σ1 !! tmp_name (ntmp σ + i) = Some data))
  ∧ (∀ cmd ps logfile σ0,
       pre_spawn m slf σ = (Ok (cmd, ps, logfile), σ0) →
       unpack_files m σ = (Ok tt, σ0)
       ∧ str_format (c_cmd (m_cfg m)) (heap σ0 !!! m_var m) = Ok cmd).
Proof.
  intros Hl. split; [| split].
  - intros fd r σ'. rewrite unpack_file_run. intros Hrun path.
    split; [| split].
    + destruct (payload fd); injection Hrun as <- <-;
        by apply provisioned_var.
    + intros Ht. unfold payload in Hrun. rewrite Ht in Hrun. simpl in Hrun.
      injection Hrun as <- <-. split; [done | apply provisioned_file].
    + intros Ht. unfold payload in Hrun. rewrite Ht in Hrun. simpl in Hrun.
      destruct (b64decode _); injection Hrun as <- <-; [| done].
      split; [done | apply provisioned_file].
  - intros fds σ1 i fd Hfds Hrun Hi. unfold unpack_files in Hrun.
    rewrite Hfds in Hrun. by eapply unpack_loop_ok.
  - intros cmd ps logfile σ0. apply pre_spawn_ok.
Qed.

(** C9, as the code has it: the remote kind is the type "wget"; for it
    the bytes read from the URL are written to the file.  The type
    "remote" is not a kind the code knows: its file stays empty. *)
Theorem wget_fetches_remote_does_not m fd σ :
  let path := tmp_name (ntmp σ) in
  (f_type fd = "wget" →
   ∀ data, urlopen (f_content fd) = Ok data →
   ∃ σ', unpack_file m fd σ = (Ok tt, σ') ∧ fs σ' !! path = Some data)
  ∧ (f_type fd = "remote" →
     ∃ σ', unpack_file m fd σ = (Ok tt, σ') ∧ fs σ' !! path = Some []).
Proof.
  intros path. split.
  - intros Ht data Hdata. rewrite unpack_file_run. unfold payload.
    rewrite Ht. simpl. rewrite Hdata.
    eexists. split; [done | apply provisioned_file].
  - intros Ht. rewrite unpack_file_run. unfold payload. rewrite Ht. simpl.
    eexists. split; [done | apply provisioned_file].
Qed.

(** C10: a file definition whose type is none of "text", "base64" and
    "wget" still gets a new temporary file; nothing is written to it,
    its path is bound under the declared name, and no exception is
    raised. *)
Theorem unhandled_type_empty_file m fd σ :
  f_type fd ≠ "text" → f_type fd ≠ "base64" → f_type fd ≠ "wget" →
  m_var m < length (heap σ) →
  ∃ σ',
    unpack_file m fd σ = (Ok tt, σ')
    ∧ ntmp σ' = S (ntmp σ)
    ∧ fs σ' !! tmp_name (ntmp σ) = Some []
    ∧ (heap σ' !!! m_var m) !! f_name fd = Some (VStr (tmp_name (ntmp σ)))
    ∧ trace σ' = trace σ.
Proof.
  intros H1 H2 H3 Hl. rewrite unpack_file_run, payload_unhandled by done.
  eexists. split; [done |]. split; [done |].
  split; [apply provisioned_file |]. split; [by apply provisioned_var | done].
Qed.

End Engine.

(** * The join *)

Module PoolFacts.
Import Pool.

Lemma inv_init : inv init.
Proof.
  split; simpl; try done.
  - intros t Ht. lia.
Qed.

(** Once the loop is over, every thread has been appended and joined. *)
Lemma all_finished (ths : list tstatus) (pl : list nat) :
  (∀ j t, pl !! j = Some t → ths !! t = Some Finished) →
  (∀ t, t < length ths →
     t ∈ pl ∨ (∃ p, p < t ∧ ths !! p = Some (Registering t))) →
  ∀ t s, ths !! t = Some s → s = Finished ∧ t ∈ pl.
Proof.
  intros Hjoined Hknown t. induction (lt_wf t) as [t _ IH]. intros s Hs.
  destruct (Hknown t) as [Hin|(p & Hp & Hreg)].
  - by eapply lookup_lt_Some.
  - split; [| done]. apply list_elem_of_lookup in Hin as [j Hj].
    apply Hjoined in Hj. congruence.
  - by destruct (IH p Hp _ Hreg) as [? _].
Qed.

Lemma step_inv a σ σ' : step a σ = Some σ' → inv σ → inv σ'.
Proof.
  intros Hstep [Hjoined Hknown Hjoin Hbound Hret].
  destruct σ as [ths pl pc]. simpl in *.
  destruct a as [|p|p|p]; simpl in Hstep.
  - (* the main thread *)
    destruct pc as [|t|i|i t|]; simplify_eq.
    + (* thread.start() of the root *)
      split; simpl; try done.
      intros t. rewrite length_app. simpl. intros Ht.
      destruct (decide (t = length ths)) as [->|]; [by right; right |].
      destruct (Hknown t) as [?|[(p & ? & Hp)|?]]; [lia | by left | | done].
      right; left. exists p. split; [done |].
      by apply lookup_app_l_Some.
    + (* thread_pool.append of the root *)
      split; simpl; try done.
      * intros j t'. lia.
      * intros t' Ht'.
        destruct (Hknown t' Ht') as [?|[?|?]]; simplify_eq.
        -- left. apply elem_of_app. by left.
        -- by right; left.
        -- left. apply elem_of_app. right. by left.
      * intros i [= <-]. lia.
    + (* the next element of the list, or the end of the loop *)
      destruct (pl !! i) as [t|] eqn:Hi; simplify_eq.
      * split; simpl; try done.
        -- intros t' Ht'.
           destruct (Hknown t' Ht') as [?|[?|?]]; by auto.
        -- by intros ?? [= <- <-].
      * assert (Hall : ∀ j t, pl !! j = Some t → ths !! t = Some Finished).
        { intros j t Hj. apply (Hjoined j); [| done].
          apply lookup_lt_Some in Hj. apply lookup_ge_None in Hi.
          simpl. lia. }
        assert (Hknown' : ∀ t, t < length ths →
                  t ∈ pl ∨ (∃ p, p < t ∧ ths !! p = Some (Registering t))).
        { intros t Ht. destruct (Hknown t Ht) as [?|[?|?]]; by auto. }
        split; simpl; try done.
        -- intros j t _. apply Hall.
        -- intros t Ht. left.
           destruct (lookup_lt_is_Some_2 ths t Ht) as [s Hs].
           by destruct (all_finished _ _ Hall Hknown' _ _ Hs).
        -- intros _ t s Hs.
           by destruct (all_finished _ _ Hall Hknown' _ _ Hs).
    + (* thread.join() returns *)
      destruct (ths !! t) as [[| |]|] eqn:Ht; simplify_eq.
      split; simpl; try done.
      * intros j t' Hj Hpl.
        destruct (decide (j = i)) as [->|];
          [| apply (Hjoined j); [simpl in *; lia | done]].
        rewrite (Hjoin i t eq_refl) in Hpl. by simplify_eq.
      * intros t' Ht'. destruct (Hknown t' Ht') as [?|[?|?]]; by auto.
      * intros i' [= <-]. specialize (Hjoin i t eq_refl).
        apply lookup_lt_Some in Hjoin. lia.
  - (* a thread starts a child *)
    destruct (ths !! p) as [[| |]|] eqn:Hp; simplify_eq.
    assert (Hplt : p < length ths) by (by eapply lookup_lt_Some).
    assert (Hkeep : ∀ t s, t ≠ p → ths !! t = Some s →
              (<[p:=Registering (length ths)]> ths ++ [Running]) !! t = Some s).
    { intros t s Hne Hs. apply lookup_app_l_Some.
      by rewrite list_lookup_insert_ne. }
    split; simpl.
    + intros j t Hj Hpl. apply Hkeep; [| by eapply Hjoined].
      intros ->. specialize (Hjoined _ _ Hj Hpl). congruence.
    + intros t. rewrite length_app, length_insert. simpl. intros Ht.
      destruct (decide (t = length ths)) as [->|].
      * right; left. exists p. split; [done |].
        apply lookup_app_l_Some. by apply list_lookup_insert_eq.
      * destruct (Hknown t) as [?|[(q & ? & Hq)|?]];
          [lia | by left | | by right; right].
        right; left. exists q. split; [done |].
        apply Hkeep; [| done]. intros ->. congruence.
    + done.
    + done.
    + intros Hpc. specialize (Hret Hpc _ _ Hp). done.
  - (* a thread appends the child it has started *)
    destruct (ths !! p) as [[|c|]|] eqn:Hp; simplify_eq.
    assert (Hplt : p < length ths) by (by eapply lookup_lt_Some).
    split; simpl.
    + intros j t Hj Hpl.
      assert (Hold : pl !! j = Some t).
      { apply lookup_app_Some in Hpl as [?|[Hge Hlast]]; [done |].
        exfalso. destruct pc as [|?|i|i t'|]; simpl in Hj; try done.
        - specialize (Hbound i eq_refl). lia.
        - specialize (Hjoin i t' eq_refl). apply lookup_lt_Some in Hjoin. lia.
        - specialize (Hret eq_refl _ _ Hp). done. }
      specialize (Hjoined _ _ Hj Hold).
      rewrite list_lookup_insert_ne; [done |]. intros ->. congruence.
    + intros t. rewrite length_insert. intros Ht.
      destruct (Hknown t Ht) as [?|[(q & ? & Hq)|?]].
      * left. apply elem_of_app. by left.
      * destruct (decide (q = p)) as [->|].
        -- left. apply elem_of_app. right. simplify_eq. by left.
        -- right; left. exists q. split; [done |].
           by rewrite list_lookup_insert_ne.
      * by right; right.
    + intros i t Hpc. apply lookup_app_l_Some. by apply Hjoin.
    + intros i Hpc. rewrite length_app. specialize (Hbound i Hpc). lia.
    + intros Hpc. specialize (Hret Hpc _ _ Hp). done.
  - (* a thread ends *)
    destruct (ths !! p) as [[| |]|] eqn:Hp; simplify_eq.
    assert (Hplt : p < length ths) by (by eapply lookup_lt_Some).
    split; simpl.
    + intros j t Hj Hpl. specialize (Hjoined _ _ Hj Hpl).
      destruct (decide (t = p)) as [->|];
        [by apply list_lookup_insert_eq | by rewrite list_lookup_insert_ne].
    + intros t. rewrite length_insert. intros Ht.
      destruct (Hknown t Ht) as [?|[(q & ? & Hq)|?]];
        [by left | | by right; right].
      right; left. exists q. split; [done |].
      rewrite list_lookup_insert_ne; [done |]. intros ->. congruence.
    + done.
    + done.
    + intros Hpc. specialize (Hret Hpc _ _ Hp). done.
Qed.

Lemma exec_inv sched σ σ' : exec sched σ = Some σ' → inv σ → inv σ'.
Proof.
  revert σ. induction sched as [|a sched IH]; intros σ; simpl.
  - by intros [= <-].
  - destruct (step a σ) as [σ1|] eqn:Hstep; [| done].
    intros Hexec Hinv. eapply IH; [done |]. by eapply step_inv.
Qed.

(** C7: under every interleaving of the threads of a tree, when
    [wait_until_complete] returns every thread ever started has been
    appended to the pool and has finished, the threads started and
    appended by other threads while the main thread was waiting
    included. *)
Theorem wait_until_complete_joins_all sched σ :
  exec sched init = Some σ →
  main σ = MReturned →
  (∀ t s, threads σ !! t = Some s → s = Finished)
  ∧ (∀ t, t < length (threads σ) → t ∈ thread_pool σ).
Proof.
  intros Hexec Hret.
  destruct (exec_inv _ _ _ Hexec inv_init)
    as [Hjoined Hknown _ _ Hfin].
  split; [by apply Hfin |].
  intros t Ht. destruct (Hknown t Ht) as [?|[(p & _ & Hp)|?]]; [done | |].
  - specialize (Hfin Hret _ _ Hp). done.
  - congruence.
Qed.

End PoolFacts.


(** * The claims on concrete trees *)

Module Examples.
Import Py Fixture.

(** [test_run]: the whole tree of the fixture logs "fo", then "fo4". *)
Example fixture_log :
  let out := test_run test_cfg 10 empty_state in
  fst out = Ok true ∧ info_of (trace (snd out)) = ["fo"; "fo4"].
Proof. vm_compute. done. Qed.

(** [test_unpack_files]: both files of the fixture hold the same text. *)
Example fixture_files :
  let σ := snd (unpack_files (root_of test_cfg) (booted test_cfg)) in
  let text := encode ("some text" +:+ nl +:+ "on two lines" +:+ nl) in
  fs σ !! "/tmp/tmp0" = Some text ∧ fs σ !! "/tmp/tmp1" = Some text.
Proof. vm_compute. done. Qed.

(** C5: every pattern is tried on every line with [match], which looks
    for the pattern at the start of the line and does not ask it to
    reach the end.  A pattern that does not match binds nothing.  One
    that matches binds the text of group i under the i-th capture name,
    for i from 1 to N in this order, each name being resolved in the
    scope as the bindings before it have left it.  In particular the
    pattern (fo)o on the line "foo" with its line end binds "fo". *)
Theorem capture_binding :
  (∀ (RT : Runtime) m slf line p σ,
     m_var m < length (heap σ) →
     (re_match (cp_pattern p) line = None →
      on_pattern m slf line p σ = (Ok tt, σ))
     ∧ ∀ mt σ',
         re_match (cp_pattern p) line = Some mt →
         on_pattern m slf line p σ = (Ok tt, σ') →
         let d := heap σ !!! m_var m in
         let vals := group_value <$> mt in
         length (cp_groups p) ≤ length mt
         ∧ ∃ names,
             length names = length (cp_groups p)
             ∧ (∀ i g, cp_groups p !! i = Some g →
                  ∃ n, names !! i = Some n
                       ∧ str_format g (bind_positional d (take i names) vals)
                         = Ok n)
             ∧ heap σ' !!! m_var m = bind_positional d names vals
             ∧ (NoDup names → ∀ i n, names !! i = Some n →
                  (heap σ' !!! m_var m) !! n = vals !! i))
  ∧ (compile "(fo)o" = Ok (cp_pattern foo_pattern)
     ∧ pmatch (cp_pattern foo_pattern) ("foo" +:+ nl) = Some [Some "fo"]
     ∧ pmatch (cp_pattern foo_pattern) ("food for thought" +:+ nl)
       = Some [Some "fo"]
     ∧ pmatch (cp_pattern foo_pattern) ("a foo" +:+ nl) = None
     ∧ (heap (snd (on_pattern (root_of test_cfg) None ("foo" +:+ nl)
                     foo_pattern (booted test_cfg))) !!! 0) !! "var2"
       = Some (VStr "fo")).
Proof.
  split.
  - intros RT m slf line p σ Hl. split; [apply on_pattern_miss |].
    intros mt σ'. by apply capture_positional.
  - vm_compute. done.
Qed.

Lemma capture_binding_witness :
  let m := root_of test_cfg in
  let σ := booted test_cfg in
  let line := "foo" +:+ nl in
  let σ' := snd (on_pattern m None line foo_pattern σ) in
  m_var m < length (heap σ)
  ∧ re_match (cp_pattern foo_pattern) line = Some [Some "fo"]
  ∧ on_pattern m None line foo_pattern σ = (Ok tt, σ')
  ∧ (heap σ' !!! m_var m) !! "var2" = Some (VStr "fo").
Proof.
  intros m σ line σ'.
  assert (Hl : m_var m < length (heap σ)) by (vm_compute; lia).
  assert (Hmt : re_match (cp_pattern foo_pattern) line = Some [Some "fo"])
    by (vm_compute; reflexivity).
  assert (Hrun : on_pattern m None line foo_pattern σ = (Ok tt, σ'))
    by (vm_compute; reflexivity).
  split; [exact Hl |]. split; [exact Hmt |]. split; [exact Hrun |].
  destruct (proj2 (proj1 capture_binding runtime m None line foo_pattern σ Hl)
              _ _ Hmt Hrun) as (_ & names & Hlen & Hres & _ & Hlook).
  destruct names as [|n [|? ?]]; try discriminate Hlen.
  destruct (Hres 0 "var2" eq_refl) as (n' & Hn' & Hfmt).
  injection Hn' as <-.
  assert (n = "var2") as -> by (vm_compute in Hfmt; congruence).
  apply (Hlook (NoDup_singleton _) 0 "var2" eq_refl).
Defined.

(** The root of the fixture: one line, one match, "always" once. *)
Lemma always_once_witness :
  let m := root_of test_cfg in
  let σ := booted test_cfg in
  let σ' := snd (run_worker m None σ) in
  should_not_run m σ = (Ok false, σ)
  ∧ run_worker m None σ = (Ok tt, σ')
  ∧ ∃ cmd σ0 lines pre post,
      unpack_files m σ = (Ok tt, σ0)
      ∧ str_format (c_cmd (m_cfg m)) (heap σ0 !!! m_var m) = Ok cmd
      ∧ popen (py_split cmd) (fs σ0) = Ok lines
      ∧ trace σ' = trace σ ++ pre ++ EvTrigger (m_var m) Always :: post
      ∧ EvPopen (py_split cmd) ∈ pre
      ∧ lines_of pre = lines
      ∧ count_trigger Always pre = 0
      ∧ lines_of post = []
      ∧ count_trigger Always post = 0
      ∧ count_trigger Always (pre ++ EvTrigger (m_var m) Always :: post) = 1.
Proof.
  intros m σ σ'.
  assert (Hpass : should_not_run m σ = (Ok false, σ))
    by (vm_compute; reflexivity).
  assert (Hrun : run_worker m None σ = (Ok tt, σ'))
    by (vm_compute; reflexivity).
  exact (conj Hpass (conj Hrun (always_once_after_output m None σ σ' Hpass Hrun))).
Defined.

(** The root of the fixture: one match occurrence, one trigger. *)
Lemma on_match_per_occurrence_witness :
  let m := root_of test_cfg in
  let σ := booted test_cfg in
  let σ' := snd (run_worker m None σ) in
  let ps := fst (fst (prepared test_cfg)) in
  let fp := snd (fst (prepared test_cfg)) in
  let lines := snd (prepared test_cfg) in
  should_not_run m σ = (Ok false, σ)
  ∧ run_worker m None σ = (Ok tt, σ')
  ∧ prepare m None σ = (Ok (ps, fp, lines), snd (prepare m None σ))
  ∧ length (occurrences ps lines) = 1
  ∧ Forall2 (compiles_to (heap (snd (prepare m None σ)) !!! m_var m))
            (default [] (c_patterns (m_cfg m))) ps
  ∧ ∃ evs, trace σ' = trace σ ++ evs
           ∧ lines_of evs = lines
           ∧ count_trigger OnMatch evs = length (occurrences ps lines).
Proof.
  intros m σ σ' ps fp lines.
  assert (Hpass : should_not_run m σ = (Ok false, σ))
    by (vm_compute; reflexivity).
  assert (Hrun : run_worker m None σ = (Ok tt, σ'))
    by (vm_compute; reflexivity).
  assert (Hprep : prepare m None σ = (Ok (ps, fp, lines), snd (prepare m None σ)))
    by (vm_compute; reflexivity).
  assert (Hocc : length (occurrences ps lines) = 1)
    by (vm_compute; reflexivity).
  exact (conj Hpass (conj Hrun (conj Hprep (conj Hocc
    (proj1 (on_match_per_occurrence m None) σ σ' ps fp lines _ Hpass Hrun Hprep))))).
Defined.

(** A node switched off, a node whose condition is false, and a node
    that runs. *)
Lemma skipped_or_run_witness :
  (enabled disabled_cfg = false
   ∧ run_worker (root_of disabled_cfg) None (booted disabled_cfg)
     = (Ok tt, booted disabled_cfg))
  ∧ (str_format "{go}" (heap (booted conditional_cfg) !!! 0) = Ok "False"
     ∧ py_eval "False" (heap (booted conditional_cfg) !!! 0) = Ok (VBool false)
     ∧ run_worker (root_of conditional_cfg) None (booted conditional_cfg)
       = (Ok tt, booted conditional_cfg))
  ∧ (enabled test_cfg = true
     ∧ c_condition test_cfg = None
     ∧ run_worker (root_of test_cfg) None (booted test_cfg)
       = run_body (root_of test_cfg) None (booted test_cfg)).
Proof.
  assert (H1 : enabled disabled_cfg = false) by reflexivity.
  assert (H2 : str_format "{go}" (heap (booted conditional_cfg) !!! 0) = Ok "False")
    by (vm_compute; reflexivity).
  assert (H3 : py_eval "False" (heap (booted conditional_cfg) !!! 0)
               = Ok (VBool false)) by reflexivity.
  split; [| split].
  - split; [exact H1 |].
    exact (proj1 (skipped_or_run (root_of disabled_cfg) None (booted disabled_cfg)) H1).
  - split; [exact H2 |]. split; [exact H3 |].
    exact (proj1 (proj2 (skipped_or_run (root_of conditional_cfg) None (booted conditional_cfg)))
             "{go}" "False" (VBool false) eq_refl eq_refl H2 H3 eq_refl).
  - split; [reflexivity |]. split; [reflexivity |].
    exact (proj1 (proj2 (proj2 (skipped_or_run (root_of test_cfg) None (booted test_cfg)))
                    eq_refl (or_introl eq_refl))).
Defined.

(** The "always" child of the fixture runs on its own dict, at address
    2, and leaves the dicts of its parent and of its sibling alone. *)
Lemma scope_isolation_witness :
  let σ := snd (run_worker (root_of test_cfg) None (booted test_cfg)) in
  let m := Instance always_cfg 2 "always" in
  let out := run_worker m None σ in
  m_var m < length (heap σ)
  ∧ (heap (snd out) !!! 2) !! "var4" = Some (VStr "fo4")
  ∧ frame (length (heap σ)) (m_var m) σ (snd out).
Proof.
  intros σ m out.
  assert (Hl : m_var m < length (heap σ)) by (vm_compute; lia).
  split; [exact Hl |]. split; [vm_compute; reflexivity |].
  exact (proj1 (proj2 (scope_isolation m None)) σ (fst out) (snd out) Hl
           (surjective_pairing out)).
Defined.

(** The node with the unresolvable capture name: the loop raises, the
    run ends with the same exception and "always" is not triggered. *)
Lemma always_only_after_normal_loop_witness :
  let m := root_of broken_cfg in
  let σ := booted broken_cfg in
  let out := run_worker m None σ in
  let ps := fst (fst (prepared broken_cfg)) in
  let fp := snd (fst (prepared broken_cfg)) in
  let lines := snd (prepared broken_cfg) in
  let σ1 := snd (prepare m None σ) in
  should_not_run m σ = (Ok false, σ)
  ∧ prepare m None σ = (Ok (ps, fp, lines), σ1)
  ∧ fst (consume m None ps fp lines σ1) = Raise (KeyError "nope")
  ∧ ∃ evs,
      trace (snd out) = trace σ ++ evs
      ∧ match consume m None ps fp lines σ1 with
        | (Ok _, _) => count_trigger Always evs = 1
        | (Raise e, σ2) =>
            fst out = Raise e ∧ snd out = σ2 ∧ count_trigger Always evs = 0
        end.
Proof.
  intros m σ out ps fp lines σ1.
  assert (Hpass : should_not_run m σ = (Ok false, σ))
    by (vm_compute; reflexivity).
  assert (Hprep : prepare m None σ = (Ok (ps, fp, lines), σ1))
    by (vm_compute; reflexivity).
  split; [exact Hpass |]. split; [exact Hprep |].
  split; [vm_compute; reflexivity |].
  exact (always_only_after_normal_loop m None σ ps fp lines σ1
           (fst out) (snd out) Hpass Hprep (surjective_pairing out)).
Defined.

(** A child and a grandchild started after the wait began. *)
Lemma wait_until_complete_joins_all_witness :
  let σ := Pool.PState [Pool.Finished; Pool.Finished; Pool.Finished]
                       [0; 1; 2] Pool.MReturned in
  Pool.exec late_schedule Pool.init = Some σ
  ∧ Pool.main σ = Pool.MReturned
  ∧ (∀ t s, Pool.threads σ !! t = Some s → s = Pool.Finished)
  ∧ (∀ t, t < length (Pool.threads σ) → t ∈ Pool.thread_pool σ).
Proof.
  intros σ.
  assert (Hexec : Pool.exec late_schedule Pool.init = Some σ) by reflexivity.
  exact (conj Hexec (conj eq_refl
    (PoolFacts.wait_until_complete_joins_all late_schedule σ Hexec eq_refl))).
Defined.

(** The file of the templated node holds its content as declared. *)
Lemma files_written_verbatim_witness :
  let m := root_of templated_cfg in
  let σ := booted templated_cfg in
  let fd := FileDef "f" "text" "{x}" in
  let out := unpack_file m fd σ in
  m_var m < length (heap σ)
  ∧ (heap (snd out) !!! m_var m) !! "f" = Some (VStr (tmp_name (ntmp σ)))
  ∧ fst out = Ok tt
  ∧ fs (snd out) !! tmp_name (ntmp σ) = Some (encode "{x}").
Proof.
  intros m σ fd out.
  assert (Hl : m_var m < length (heap σ)) by (vm_compute; lia).
  destruct (proj1 (files_written_verbatim m None σ Hl) fd (fst out) (snd out)
              (surjective_pairing out)) as (Hvar & Htext & _).
  destruct (Htext eq_refl) as [Hok Hfile].
  exact (conj Hl (conj Hvar (conj Hok Hfile))).
Defined.

(** The same URL under the two type names. *)
Lemma wget_fetches_remote_does_not_witness :
  let url := "http://localhost/payload" in
  let data := list_byte_of_string "remote payload" in
  urlopen url = Ok data
  ∧ (∃ σ', unpack_file (root_of wget_cfg) (FileDef "f" "wget" url)
             (booted wget_cfg) = (Ok tt, σ')
           ∧ fs σ' !! tmp_name 0 = Some data)
  ∧ (∃ σ', unpack_file (root_of remote_cfg) (FileDef "f" "remote" url)
             (booted remote_cfg) = (Ok tt, σ')
           ∧ fs σ' !! tmp_name 0 = Some []).
Proof.
  intros url data.
  assert (Hurl : urlopen url = Ok data) by reflexivity.
  split; [exact Hurl |]. split.
  - exact (proj1 (wget_fetches_remote_does_not (root_of wget_cfg)
                    (FileDef "f" "wget" url) (booted wget_cfg))
             eq_refl data Hurl).
  - exact (proj2 (wget_fetches_remote_does_not (root_of remote_cfg)
                    (FileDef "f" "remote" url) (booted remote_cfg)) eq_refl).
Defined.

(** A file of the unknown type "remote". *)
Lemma unhandled_type_empty_file_witness :
  let m := root_of remote_cfg in
  let σ := booted remote_cfg in
  let fd := FileDef "f" "remote" "http://localhost/payload" in
  f_type fd ≠ "text" ∧ f_type fd ≠ "base64" ∧ f_type fd ≠ "wget"
  ∧ m_var m < length (heap σ)
  ∧ ∃ σ',
      unpack_file m fd σ = (Ok tt, σ')
      ∧ ntmp σ' = S (ntmp σ)
      ∧ fs σ' !! tmp_name (ntmp σ) = Some []
      ∧ (heap σ' !!! m_var m) !! f_name fd = Some (VStr (tmp_name (ntmp σ)))
      ∧ trace σ' = trace σ.
Proof.
  intros m σ fd.
  assert (H1 : f_type fd ≠ "text") by discriminate.
  assert (H2 : f_type fd ≠ "base64") by discriminate.
  assert (H3 : f_type fd ≠ "wget") by discriminate.
  assert (Hl : m_var m < length (heap σ)) by (vm_compute; lia).
  exact (conj H1 (conj H2 (conj H3 (conj Hl
    (unhandled_type_empty_file m fd σ H1 H2 H3 Hl))))).
Defined.

(** ** Where the code departs from the specification *)

(** Against C1: the node is not skipped and its command resolves, but
    the program cannot be started; [Popen] raises, the run ends with
    that exception before a line is read, and the "always" group, which
    has a child, is not triggered at all. *)
Lemma always_not_unconditional :
  let m := root_of absent_cfg in
  let σ := booted absent_cfg in
  let out := run_worker m None σ in
  should_not_run m σ = (Ok false, σ)
  ∧ c_always (m_cfg m) = Some [leaf "cleanup" "echo done"]
  ∧ str_format (c_cmd (m_cfg m)) (heap σ !!! m_var m) = Ok "nmap -sV host"
  ∧ fst out = Raise OSError
  ∧ lines_of (trace (snd out)) = []
  ∧ count_trigger Always (trace (snd out)) = 0
  ∧ started (trace (snd out)) = [].
Proof. vm_compute. done. Qed.

(** Against C6: the node is not skipped, its command prints a line, the
    capture name of the matching pattern cannot be resolved; the run
    ends with [KeyError] after that line and the "always" group, which
    has a child, is never triggered. *)
Lemma always_lost_on_error :
  let m := root_of broken_cfg in
  let σ := booted broken_cfg in
  let out := run_worker m None σ in
  should_not_run m σ = (Ok false, σ)
  ∧ c_always (m_cfg m) = Some [leaf "cleanup" "echo done"]
  ∧ fst out = Raise (KeyError "nope")
  ∧ lines_of (trace (snd out)) = ["foo" +:+ nl]
  ∧ count_trigger Always (trace (snd out)) = 0
  ∧ started (trace (snd out)) = [].
Proof. vm_compute. done. Qed.

(** Against C8: the content [{x}] of the file is written as it stands,
    although [x] is in the scope and the template resolves to [v]. *)
Lemma file_content_not_resolved :
  let m := root_of templated_cfg in
  let σ := booted templated_cfg in
  let out := unpack_files m σ in
  fst out = Ok tt
  ∧ str_format "{x}" (heap σ !!! m_var m) = Ok "v"
  ∧ fs (snd out) !! "/tmp/tmp0" = Some (encode "{x}")
  ∧ fs (snd out) !! "/tmp/tmp0" ≠ Some (encode "v").
Proof. vm_compute. done. Qed.

(** Against C9: a file of type "remote" stays empty, although the URL
    serves a document. *)
Lemma remote_type_writes_nothing :
  let m := root_of remote_cfg in
  let σ := booted remote_cfg in
  let out := unpack_files m σ in
  fst out = Ok tt
  ∧ urlopen "http://localhost/payload"
    = Ok (list_byte_of_string "remote payload")
  ∧ fs (snd out) !! "/tmp/tmp0" = Some [].
Proof. vm_compute. done. Qed.

End Examples.

(** * More of the engine *)

(** ** Dicts, threads and pool through a run *)

Lemma frame_trans l σ1 σ2 σ3 :
  frame (length (heap σ1)) l σ1 σ2 →
  frame (length (heap σ2)) l σ2 σ3 →
  frame (length (heap σ1)) l σ1 σ3.
Proof.
  intros [Hlen1 Hsame1] [Hlen2 Hsame2]. split; [lia |].
  intros l' Hl' Hne. rewrite Hsame2 by (done || lia). by apply Hsame1.
Qed.

Lemma frame_lookup_total l σ σ' v :
  frame (length (heap σ)) l σ σ' → v < length (heap σ) → v ≠ l →
  heap σ' !!! v = heap σ !!! v.
Proof.
  intros [_ Hsame] Hv Hne. rewrite !list_lookup_total_alt.
  by rewrite Hsame.
Qed.

#[export] Instance cascade_inv_preorder l slf : PreOrder (cascade_inv l slf).
Proof.
  split.
  - intros σ Hl. split; [split; [lia | done] |]. split; [done |].
    exists []. rewrite !app_nil_r. repeat split; try done.
    + apply NoDup_nil_2.
  - intros σ1 σ2 σ3 H12 H23 Hl.
    destruct (H12 Hl) as (Hf1 & Hd1 & a & Hta & Hpa & Hna & Hfa).
    assert (Hl2 : l < length (heap σ2)) by (destruct Hf1; lia).
    destruct (H23 Hl2) as (Hf2 & Hd2 & b & Htb & Hpb & Hnb & Hfb).
    split; [by eapply frame_trans |]. split; [set_solver |].
    exists (a ++ b). rewrite started_app, !fmap_app.
    split; [by rewrite Htb, Hta, app_assoc |].
    split; [by rewrite Hpb, Hpa, app_assoc |].
    split.
    + apply NoDup_app. split; [done |]. split; [| done].
      intros v [sa [-> Hsa]]%list_elem_of_fmap [sb [Heq Hsb]]%list_elem_of_fmap.
      rewrite Forall_forall in Hfa, Hfb.
      destruct (Hfa _ Hsa) as (_ & ? & _). destruct (Hfb _ Hsb) as (? & _).
      lia.
    + apply Forall_app. split.
      * eapply Forall_impl; [exact Hfa |]. intros s (Hlo & Hhi & Hdom).
        destruct Hf2 as [Hlen2 Hsame2]. split; [done |]. split; [lia |].
        rewrite (frame_lookup_total l σ2 σ3); [done | by split | done | lia].
      * eapply Forall_impl; [exact Hfb |]. intros s (Hlo & Hhi & Hdom).
        destruct Hf1 as [Hlen1 _]. split; [lia |]. split; [done |].
        set_solver.
Qed.


Section Cascade.
Context `{Runtime}.

















End Cascade.

(** ** Files through a run *)

#[export] Instance keeps_files_preorder : PreOrder keeps_files.
Proof.
  split; [done |]. intros σ1 σ2 σ3 [H1 H2] [H3 H4].
  split; congruence.
Qed.

#[export] Instance keeps_threads_preorder : PreOrder keeps_threads.
Proof.
  split; [done |]. intros σ1 σ2 σ3 [H1 H2] [H3 H4].
  split; congruence.
Qed.

Section Files.
Context `{Runtime}.









End Files.

(** ** What a run writes *)

Section Writes.
Context `{Runtime}.

#[export] Instance writes_only_preorder slf : PreOrder (writes_only slf).
Proof.
  split.
  - intros σ. split; [lia | done].
  - intros σ1 σ2 σ3 [Hn1 Hf1] [Hn2 Hf2]. split; [lia |].
    intros p Htmp Hlog. rewrite Hf2, Hf1; try done.
    + intros n Hn. apply Htmp. lia.
    + intros n Hn. apply Htmp. lia.
Qed.







End Writes.

(** ** Registration, scopes, files and failures *)

Section Extras.
Context `{Runtime}.


















End Extras.

(** ** The pool under every interleaving *)

Module RegistryFacts.
Import Pool Registry.









End RegistryFacts.

(** ** The process and its log file *)

Section Process.
Context `{Runtime}.



End Process.

(** * The further properties on concrete trees *)

Module Further.
Import Py Fixture Cases.

















End Further.
